(** * eventlog-example: projection sync, aggregate apply and conditional append

    Shallow embedding of [event/event.go], the database package
    ([database.DB], [database.Tx]) and the consumer/producer services of
    [cmd/consumer/main.go] / [cmd/producer/main.go].

    Modelling choices:
    - Go [int64] values are [Z]; every [int64] arithmetic result is passed
      through [wrap64] (two's-complement wrap-around).
    - The badger key-value store holds object entries under ["o_" + object]
      and the projection version under ["version"]; these key spaces are
      disjoint, so the store is a record of a [gmap string Z] (decimal values
      written by [Tx.Set] and parsed back by [Tx.GetQuantity]) and the
      version string ([""] when the key is absent, as
      [Tx.GetProjectionVersion] reports it).
    - A transaction is a state/error computation on the store;
      [DB.WithinTx] keeps the new store on success and discards it on error.
    - The event log (package [github.com/romshark/eventlog/client], an
      external dependency) is a list of events carrying their versions;
      its operations follow the interface in the spec. JSON payloads are
      represented after parsing: [None] stands for a payload that
      [json.Unmarshal] rejects. *)

From Stdlib Require Import ZArith Lia Ascii.
From stdpp Require Import base gmap list strings relations.

Open Scope string_scope.
Open Scope Z_scope.

(* ------------------------------------------------------------------ *)
(** ** Errors and int64 arithmetic *)

Inductive error :=
  | ErrUnknownEventType   (** [fmt.Errorf("unknown event type: ...")] *)
  | ErrDecodingPayload    (** [json.Unmarshal] failure *)
  | ErrInvalidVersion     (** log scan from a version it does not hold *)
  | ErrInsuffQuant        (** [ErrInsuffQuant] *)
  | ErrInvalidObject      (** [ValidateInput]: invalid object *)
  | ErrInvalidQuantity    (** [ValidateInput]: invalid quantity *)
  | ErrAbortScan          (** [database.ErrAbortScan] *)
  | ErrCommit.            (** an error of [t.tx.Commit()] ([badger.ErrConflict], I/O) *)

Global Instance error_eq_dec : EqDecision error.
Proof. solve_decision. Defined.

Inductive result (A : Type) :=
  | Ok (a : A)
  | Err (e : error).
Arguments Ok {A} a.
Arguments Err {A} e.

Definition int64_max : Z := 2 ^ 63 - 1.
Definition int64_min : Z := - 2 ^ 63.

(** Go's signed 64-bit wrap-around. *)
Definition wrap64 (z : Z) : Z := (z + 2 ^ 63) mod 2 ^ 64 - 2 ^ 63.

(* ------------------------------------------------------------------ *)
(** ** Wire and domain events ([event/event.go], [client]) *)

(** The JSON payload [{object, quantity}] after parsing. *)
Record Payload := mkPayload {
  pl_object : string;
  pl_quantity : Z
}.

(** [client.Event]: an event as scanned from the log. *)
Record client_Event := mkClientEvent {
  ev_Version : string;
  ev_Label : string;
  ev_PayloadJSON : option Payload
}.

(** [client.EventData]: an event to append. *)
Record EventData := mkEventData {
  ed_Label : string;
  ed_PayloadJSON : Payload
}.

(** [event.Event]. *)
Record Event := mkEvent {
  Operation : string;
  Object : string;
  Quantity : Z
}.

Definition is_known_label (l : string) : bool :=
  String.eqb l "put" || String.eqb l "take".

(** [event.Decode]: label switch first, then [json.Unmarshal]. *)
Definition Decode (i : client_Event) : result Event :=
  if is_known_label (ev_Label i) then
    match ev_PayloadJSON i with
    | None => Err ErrDecodingPayload
    | Some p => Ok (mkEvent (ev_Label i) (pl_object p) (pl_quantity p))
    end
  else Err ErrUnknownEventType.

(** [event.Encode]: [json.Marshal] of the struct cannot fail. *)
Definition Encode (i : Event) : result EventData :=
  if is_known_label (Operation i) then
    Ok (mkEventData (Operation i) (mkPayload (Object i) (Quantity i)))
  else Err ErrUnknownEventType.

(* ------------------------------------------------------------------ *)
(** ** The store and transactions ([database] package) *)

Record Store := mkStore {
  objects : gmap string Z;
  pversion : string
}.

Definition empty_store : Store := mkStore ∅ "".

Definition TxM (A : Type) : Type := Store -> Store * result A.

Definition ret {A} (a : A) : TxM A := fun s => (s, Ok a).
Definition fail {A} (e : error) : TxM A := fun s => (s, Err e).
Definition bind {A B} (m : TxM A) (k : A -> TxM B) : TxM B :=
  fun s => match m s with
           | (s', Ok a) => k a s'
           | (s', Err e) => (s', Err e)
           end.

Notation "'let!' x := m 'in' k" := (bind m (fun x => k))
  (at level 200, x name, m at level 100, k at level 200).

(** [database.TxType]. *)
Inductive TxType := ReadOnly | ReadWrite.

(** [DB.WithinTx] in a run where [t.tx.Commit()] succeeds: commit when
    [fn] succeeds, discard otherwise. Badger's Commit returns nil at once
    for a transaction without pending writes (every read-only one, and a
    read-write one whose [fn] wrote nothing); for [Producer.Take], whose
    transaction may hold the writes of a resync, a failing Commit is
    modelled by [Take_c] below. *)
Definition DB_WithinTx {A} (tt : TxType) (fn : TxM A) : TxM A :=
  fun s => match fn s with
           | (s', Ok a) => (s', Ok a)
           | (_, Err e) => (s, Err e)
           end.

Definition Tx_Delete (object : string) : TxM unit :=
  fun s => (mkStore (delete object (objects s)) (pversion s), Ok tt).

Definition Tx_Set (object : string) (num : Z) : TxM unit :=
  fun s => (mkStore (<[object := num]> (objects s)) (pversion s), Ok tt).

Definition Tx_SetProjectionVersion (version : string) : TxM unit :=
  fun s => (mkStore (objects s) version, Ok tt).

(** A missing key reads as quantity 0. *)
Definition Tx_GetQuantity (object : string) : TxM Z :=
  fun s => (s, Ok (default 0 (objects s !! object))).

Definition Tx_GetProjectionVersion : TxM string :=
  fun s => (s, Ok (pversion s)).

(* ------------------------------------------------------------------ *)
(** ** Aggregate apply ([Consumer.apply], [Producer.apply]) *)

(** The quantity switch on [e.Label]; the default case leaves
    [newQuantity] at its zero value. *)
Definition new_quantity (label : string) (previousQuantity q : Z) : Z :=
  if String.eqb label "take" then wrap64 (previousQuantity - q)
  else if String.eqb label "put" then wrap64 (previousQuantity + q)
  else 0.

(** [Consumer.apply]. The deferred [SetProjectionVersion] runs only when
    the body returned no error. *)
Definition Consumer_apply (e : client_Event) : TxM unit :=
  bind
    (match Decode e with
     | Err err => fail err
     | Ok event =>
         let! previousQuantity := Tx_GetQuantity (Object event) in
         let newQuantity := new_quantity (ev_Label e) previousQuantity
                              (Quantity event) in
         if newQuantity <? 1 then Tx_Delete (Object event)
         else Tx_Set (Object event) newQuantity
     end)
    (fun _ => Tx_SetProjectionVersion (ev_Version e)).

(** [Producer.apply]: the same text as [Consumer.apply] in the producer. *)
Definition Producer_apply (e : client_Event) : TxM unit :=
  bind
    (match Decode e with
     | Err err => fail err
     | Ok event =>
         let! previousQuantity := Tx_GetQuantity (Object event) in
         let newQuantity := new_quantity (ev_Label e) previousQuantity
                              (Quantity event) in
         if newQuantity <? 1 then Tx_Delete (Object event)
         else Tx_Set (Object event) newQuantity
     end)
    (fun _ => Tx_SetProjectionVersion (ev_Version e)).

(** Replaying a sequence of events through [apply] inside one
    transaction, stopping at the first error. *)
Fixpoint replay (app : client_Event -> TxM unit) (es : list client_Event)
    : TxM unit :=
  match es with
  | [] => ret tt
  | e :: rest => let! _ := app e in replay app rest
  end.

(* ------------------------------------------------------------------ *)
(** ** The event log ([client.Client]) *)

(** The log: accepted events in log order. *)
Definition Log := list client_Event.

(** The version of the latest event, or the empty-log sentinel ["0"]. *)
Definition head_version (log : Log) : string :=
  match last log with
  | None => "0"
  | Some e => ev_Version e
  end.

(** [Client.VersionInitial]. *)
Definition VersionInitial (log : Log) : string :=
  match log with
  | [] => "0"
  | e :: _ => ev_Version e
  end.

(** The events a non-following scan from version [sv] delivers: the
    event holding [sv] and every later one. *)
Fixpoint scan_from (sv : string) (log : Log) : option Log :=
  match log with
  | [] => None
  | e :: rest => if String.eqb (ev_Version e) sv then Some log
                 else scan_from sv rest
  end.

Fixpoint scan_each {A} (fn : A -> client_Event -> TxM A) (acc : A)
    (es : list client_Event) : TxM A :=
  match es with
  | [] => ret acc
  | e :: rest => let! acc' := fn acc e in scan_each fn acc' rest
  end.

(** [Client.Scan(ctx, sv, false, fn)]: the callback runs for each event in
    order; the first error it returns stops the scan and is returned. The
    callback's closure state (the producer's [latestVersion]) is threaded
    as an accumulator. *)
Definition Client_Scan {A} (log : Log) (sv : string)
    (fn : A -> client_Event -> TxM A) (acc : A) : TxM A :=
  match scan_from sv log with
  | None => fail ErrInvalidVersion
  | Some es => scan_each fn acc es
  end.

(* ------------------------------------------------------------------ *)
(** ** Sync engine ([Consumer.Sync], [Producer.Sync], [Producer.sync]) *)

(** The body of [Consumer.Sync], run inside its read-write transaction. *)
Definition Consumer_Sync_body (log : Log) : TxM unit :=
  let! v := Tx_GetProjectionVersion in
  let sv := if String.eqb v "" then VersionInitial log else v in
  if String.eqb sv "0" then ret tt
  else Client_Scan log sv
         (fun _ e => if String.eqb v (ev_Version e) then ret tt
                     else Consumer_apply e) tt.

(** [Consumer.Sync]. *)
Definition Consumer_Sync (log : Log) : TxM unit :=
  DB_WithinTx ReadWrite (Consumer_Sync_body log).

(** [Producer.sync]: returns the version of the last applied event
    ([""] when none was applied, [sv] when the log is empty). *)
Definition Producer_sync (log : Log) : TxM string :=
  let! v := Tx_GetProjectionVersion in
  let sv := if String.eqb v "" then VersionInitial log else v in
  if String.eqb sv "0" then ret sv
  else Client_Scan log sv
         (fun latestVersion e =>
            if String.eqb v (ev_Version e) then ret latestVersion
            else let! _ := Producer_apply e in ret (ev_Version e)) "".

(** [Producer.Sync]: [in_tx] tells whether the caller passed its own
    transaction ([tx != nil]); otherwise a new one is opened. *)
Definition Producer_Sync (log : Log) (in_tx : bool) : TxM string :=
  if in_tx then Producer_sync log
  else DB_WithinTx ReadWrite (Producer_sync log).

(* ------------------------------------------------------------------ *)
(** ** Read projection query ([Consumer.ScanDB], [Tx.ScanObjects]) *)

(** The loop of [Tx.scanPrefix] over the entries the iterator yields,
    given as (object, quantity) pairs: [ScanObjects] strips the ["o_"]
    prefix and parses the decimal value, which succeeds for every value
    written by [Tx.Set]. Inside the loop the callback's error is bound by
    [if err := i.Value(...); err != nil], a new [err] shadowing the named
    result, and is returned as it is. *)
Fixpoint scanPrefix_loop (fn : string -> Z -> option error)
    (items : list (string * Z)) : option error :=
  match items with
  | [] => None
  | (k, v) :: rest =>
      match fn k v with
      | Some err => Some err
      | None => scanPrefix_loop fn rest
      end
  end.

(** [Tx.scanPrefix]. After the loop, the filter
    [if err != nil && err != ErrAbortScan] reads the named result [err],
    which the loop never assigns. *)
Definition Tx_scanPrefix (items : list (string * Z))
    (fn : string -> Z -> option error) : option error :=
  let named_err : option error := None in
  match scanPrefix_loop fn items with
  | Some err => Some err
  | None =>
      match named_err with
      | Some err => if decide (err = ErrAbortScan) then None else Some err
      | None => None
      end
  end.

(** [Tx.ScanObjects]; the entries are enumerated in the order of
    [map_to_list]. *)
Definition Tx_ScanObjects (fn : string -> Z -> option error) : TxM unit :=
  fun s => (s, match Tx_scanPrefix (map_to_list (objects s)) fn with
               | None => Ok tt
               | Some err => Err err
               end).

(** [Consumer.ScanDB]. *)
Definition Consumer_ScanDB (onVersion : string -> bool)
    (onObject : string -> Z -> bool) : TxM unit :=
  DB_WithinTx ReadOnly
    (let! v := Tx_GetProjectionVersion in
     if negb (onVersion v) then ret tt
     else Tx_ScanObjects (fun object quantity =>
            if onObject object quantity then None else Some ErrAbortScan)).

(* ------------------------------------------------------------------ *)
(** ** Producer write path ([ValidateInput], [Producer.Put], [Producer.Take]) *)

(** [ValidateInput]. *)
Definition ValidateInput (object : string) (quantity : Z) : option error :=
  if String.eqb object "" then Some ErrInvalidObject
  else if quantity <? 0 then Some ErrInvalidQuantity
  else None.

(** The service's local store together with the shared log. *)
Record World := mkWorld {
  db : Store;
  wlog : Log
}.

(** [Client.Append]: the log assigns the version [fresh]. *)
Definition Client_Append (fresh : string) (ev : EventData) (lg : Log) : Log :=
  (lg ++ [mkClientEvent fresh (ed_Label ev) (Some (ed_PayloadJSON ev))])%list.

(** [Producer.Put]. [fresh] is the version the log assigns. *)
Definition Put (fresh : string) (object : string) (quantity : Z)
    (w : World) : World * result unit :=
  match ValidateInput object quantity with
  | Some err => (w, Err err)
  | None =>
      match Encode (mkEvent "put" object quantity) with
      | Err err => (w, Err err)
      | Ok ev => (mkWorld (db w) (Client_Append fresh ev (wlog w)), Ok tt)
      end
  end.

(** [Client.TryAppend], modelled after the spec's interface: build the
    event; if the log head still equals [assumed], append it; otherwise call
    [onConflict] and retry against the version it returns.
    The environment is explicit: before the head check of the k-th attempt
    other writers append the k-th batch of [others]; [fresh] is the version
    the log assigns on success; [fuel] bounds the number of retries (the Go
    loop has none), [None] meaning the bound was reached. *)
Fixpoint Client_TryAppend (fuel : nat) (others : list Log) (fresh : string)
    (assumed : string) (build : TxM EventData) (onConflict : Log -> TxM string)
    (lg : Log) (t : Store) : option (Log * Store * result string) :=
  match build t with
  | (t1, Err err) => Some (lg, t1, Err err)
  | (t1, Ok ev) =>
      let lg1 := (lg ++ default [] (head others))%list in
      if String.eqb assumed (head_version lg1) then
        Some (Client_Append fresh ev lg1, t1, Ok fresh)
      else
        match fuel with
        | O => None
        | S fuel' =>
            match onConflict lg1 t1 with
            | (t2, Err err) => Some (lg1, t2, Err err)
            | (t2, Ok v') =>
                Client_TryAppend fuel' (tail others) fresh v' build onConflict
                  lg1 t2
            end
        end
  end.

(** The event-building callback of [Producer.Take]. *)
Definition Take_build (object : string) (quantity : Z) : TxM EventData :=
  let! q := Tx_GetQuantity object in
  if wrap64 (q - quantity) <? 0 then fail ErrInsuffQuant
  else match Encode (mkEvent "take" object quantity) with
       | Err err => fail err
       | Ok ev => ret ev
       end.

(** [Producer.Take]: validation, then [TryAppend] inside one read-write
    transaction [T] against the projection version, with
    [p.Sync(ctx, t)] as the conflict handler. [T] is discarded when
    [TryAppend] fails; when it succeeds (the take event is then in the
    log) [WithinTx] calls [T.Commit()], whose result is [cerr]: on an error
    [T]'s writes (those of the resyncs) are lost and [Take] returns it.
    Badger returns nil when [T] has no pending writes, so [Some _] only
    arises after a resync that applied events. *)
Definition Take_c (cerr : option error) (fuel : nat) (others : list Log)
    (fresh : string) (object : string) (quantity : Z) (w : World)
    : option (World * result unit) :=
  match ValidateInput object quantity with
  | Some err => Some (w, Err err)
  | None =>
      let v := pversion (db w) in
      match Client_TryAppend fuel others fresh v (Take_build object quantity)
              (fun lg => Producer_Sync lg true) (wlog w) (db w) with
      | None => None
      | Some (lg', t', Ok _) =>
          match cerr with
          | None => Some (mkWorld t' lg', Ok tt)
          | Some err => Some (mkWorld (db w) lg', Err err)
          end
      | Some (lg', _, Err err) => Some (mkWorld (db w) lg', Err err)
      end
  end.

(** [Producer.Take] in a run where [T.Commit()] succeeds ([Take_c None]). *)
Definition Take (fuel : nat) (others : list Log) (fresh : string)
    (object : string) (quantity : Z) (w : World)
    : option (World * result unit) :=
  match ValidateInput object quantity with
  | Some err => Some (w, Err err)
  | None =>
      let v := pversion (db w) in
      match Client_TryAppend fuel others fresh v (Take_build object quantity)
              (fun lg => Producer_Sync lg true) (wlog w) (db w) with
      | None => None
      | Some (lg', t', Ok _) => Some (mkWorld t' lg', Ok tt)
      | Some (lg', _, Err err) => Some (mkWorld (db w) lg', Err err)
      end
  end.

(* ------------------------------------------------------------------ *)
(** ** Auxiliary predicates *)

(** Every retained object has a quantity in [1 .. int64_max]. *)
Definition store_inv (s : Store) : Prop :=
  map_Forall (fun _ q => 1 <= q <= int64_max) (objects s).

(** A put/take event whose payload parses. *)
Definition decodes (e : client_Event) : Prop :=
  exists ev, Decode e = Ok ev.

(** Versions assigned by the log: pairwise distinct, never [""] (the
    "never synced" marker) nor ["0"] (the empty-log sentinel). *)
Definition log_wf (lg : Log) : Prop :=
  List.NoDup (map ev_Version lg) /\
  Forall (fun e => ev_Version e <> "" /\ ev_Version e <> "0") lg.

(** A result with its value forgotten. *)
Definition forget {A} (r : result A) : result unit :=
  match r with
  | Ok _ => Ok tt
  | Err err => Err err
  end.

(** The events a sync pass with marker [v] applies: all but the one
    carrying [v]. *)
Definition not_marker (v : string) (es : list client_Event) : list client_Event :=
  List.filter (fun e => negb (String.eqb v (ev_Version e))) es.

(** Store changes made only by producer sync passes run inside the
    caller's transaction. *)
Definition sync_step (s s' : Store) : Prop :=
  exists lg v, Producer_Sync lg true s = (s', Ok v).

(** Producer sync passes run inside the caller's transaction over the
    logs [lgs] in turn, each succeeding; [None] when one fails. *)
Fixpoint sync_passes (lgs : list Log) (t : Store) : option Store :=
  match lgs with
  | [] => Some t
  | lg :: rest =>
      match Producer_Sync lg true t with
      | (t1, Ok _) => sync_passes rest t1
      | (_, Err _) => None
      end
  end.

(** The log after the first [i] batches of other writers. *)
Definition log_after (lg : Log) (others : list Log) (i : nat) : Log :=
  (lg ++ concat (firstn i others))%list.

(** Replaying the log one event at a time: after each append, one
    [Consumer.Sync] pass over the log as it is then. *)
Fixpoint sync_one_at_a_time (seen rest : Log) (s : Store) : Store :=
  match rest with
  | [] => s
  | e :: rest' =>
      sync_one_at_a_time (seen ++ [e])%list rest'
        (fst (Consumer_Sync (seen ++ [e])%list s))
  end.

(** The apply step of a decodable event, as one store update. *)
Definition apply_result (e : client_Event) (ev : Event) (s : Store) : Store :=
  let Q := default 0 (objects s !! Object ev) in
  let Q' := new_quantity (ev_Label e) Q (Quantity ev) in
  mkStore (if Q' <? 1 then delete (Object ev) (objects s)
           else <[Object ev := Q']> (objects s)) (ev_Version e).

(* ------------------------------------------------------------------ *)
(** ** Decimal integers ([fmt.Sprintf("%d")], [strconv.ParseInt])

    [Tx.Set] stores a quantity as [fmt.Sprintf("%d", num)] and
    [Tx.GetQuantity] / [Tx.ScanObjects] read it back with
    [strconv.ParseInt(v, 10, 64)]; [parseInput] reads the typed quantity
    with [strconv.ParseInt(s, 10, 32)]. Strings are byte strings. *)

(** [strconv.ErrSyntax] and [strconv.ErrRange]. *)
Inductive numError := ErrSyntax | ErrRange.

Global Instance numError_eq_dec : EqDecision numError.
Proof. solve_decision. Defined.

Definition maxUint64 : Z := 2 ^ 64 - 1.

(** Go's [uint64] wrap-around. *)
Definition wrapu64 (z : Z) : Z := z mod 2 ^ 64.

Definition is_digit (c : ascii) : bool :=
  (48 <=? nat_of_ascii c)%nat && (nat_of_ascii c <=? 57)%nat.

Definition digit_val (c : ascii) : Z := Z.of_nat (nat_of_ascii c) - 48.

(** The digit loop of [strconv.ParseUint] for base 10: [cutoff] is
    [maxUint64/10 + 1], [maxVal] is [1<<bitSize - 1]. For base 10 a letter
    gets a digit value [>= 10] and is refused with [ErrSyntax], like every
    other non-digit byte ([_] is accepted only for base 0). *)
Fixpoint ParseUint_loop (cutoff maxVal n : Z) (s : string) : Z * option numError :=
  match s with
  | EmptyString => (n, None)
  | String c rest =>
      if negb (is_digit c) then (0, Some ErrSyntax)
      else
        let d := digit_val c in
        if cutoff <=? n then (maxVal, Some ErrRange)
        else
          let n := wrapu64 (n * 10) in
          let n1 := wrapu64 (n + d) in
          if (n1 <? n) || (maxVal <? n1) then (maxVal, Some ErrRange)
          else ParseUint_loop cutoff maxVal n1 rest
  end.

(** [strconv.ParseUint(s, 10, bitSize)]. *)
Definition ParseUint (s : string) (bitSize : Z) : Z * option numError :=
  if String.eqb s "" then (0, Some ErrSyntax)
  else ParseUint_loop (maxUint64 / 10 + 1) (2 ^ bitSize - 1) 0 s.

(** [strconv.ParseInt(s, 10, bitSize)]: leading sign, then [ParseUint];
    a range error of [ParseUint] falls through to the signed range checks. *)
Definition ParseInt (s : string) (bitSize : Z) : Z * option numError :=
  match s with
  | EmptyString => (0, Some ErrSyntax)
  | String c rest =>
      let '(neg, s) :=
        if Ascii.eqb c "+"%char then (false, rest)
        else if Ascii.eqb c "-"%char then (true, rest)
        else (false, s) in
      let '(un, err) := ParseUint s bitSize in
      match err with
      | Some ErrSyntax => (0, Some ErrSyntax)
      | _ =>
          let cutoff := 2 ^ (bitSize - 1) in
          if negb neg && (cutoff <=? un) then (cutoff - 1, Some ErrRange)
          else if neg && (cutoff <? un) then (- cutoff, Some ErrRange)
          else
            let n := wrap64 un in
            ((if neg then wrap64 (- n) else n), None)
      end
  end.

Definition digit_char (d : Z) : ascii := ascii_of_nat (Z.to_nat (48 + d)).

(** The base-10 digit loop of [fmt]'s [fmtInteger] on a [uint64] [u],
    filling the buffer from its end. [fuel] bounds the iterations: 19
    suffice for a [uint64]. *)
Fixpoint fmt_digits (fuel : nat) (u : Z) (buf : string) : string :=
  match fuel with
  | O => String (digit_char u) buf
  | S fuel' =>
      if u <? 10 then String (digit_char u) buf
      else
        let next := u / 10 in
        fmt_digits fuel' next (String (digit_char (u - next * 10)) buf)
  end.

(** [fmt.Sprintf("%d", num)] for an [int64] [num]: a negative value is
    negated as a [uint64] and printed after a minus sign. *)
Definition Sprintf_d (num : Z) : string :=
  let negative := num <? 0 in
  let u := wrapu64 num in
  let u := if negative then wrapu64 (- u) else u in
  let s := fmt_digits 20 u "" in
  if negative then String "-"%char s else s.

(* ------------------------------------------------------------------ *)
(** ** The key-value layout of [database.Tx]

    The badger transaction's view as a map from keys to values, both byte
    strings. Transaction operations other than a lookup of a missing key
    ([badger.ErrKeyNotFound]) are taken not to fail. *)

Abbreviation KV := (gmap string string) (only parsing).

(** [Tx.Set]: key ["o_" + object], value [fmt.Sprintf("%d", num)]. *)
Definition raw_Set (object : string) (num : Z) (kv : KV) : KV :=
  <[("o_" ++ object) := Sprintf_d num]> kv.

(** [Tx.Delete]. *)
Definition raw_Delete (object : string) (kv : KV) : KV :=
  delete ("o_" ++ object) kv.

(** [Tx.SetProjectionVersion]. *)
Definition raw_SetProjectionVersion (version : string) (kv : KV) : KV :=
  <["version" := version]> kv.

(** [Tx.GetQuantity]: a missing key reads as 0 without error, a present
    value is parsed with [strconv.ParseInt(v, 10, 64)]. *)
Definition raw_GetQuantity (object : string) (kv : KV) : Z * option numError :=
  match kv !! ("o_" ++ object) with
  | None => (0, None)
  | Some v => ParseInt v 64
  end.

(** [Tx.GetProjectionVersion]: a missing key reads as [""]. *)
Definition raw_GetProjectionVersion (kv : KV) : string :=
  match kv !! "version" with
  | None => ""
  | Some v => v
  end.

(** Errors of a raw scan: the callback's, or a parse error wrapped by
    [ScanObjects] ("parsing scanned quantity"). *)
Inductive db_error :=
  | DBErr (e : error)
  | DBErrParse (e : numError).

(** [key[n:]]. *)
Fixpoint str_drop (n : nat) (s : string) : string :=
  match n, s with
  | O, _ => s
  | S n', String _ rest => str_drop n' rest
  | S _, EmptyString => EmptyString
  end.

(** The loop of [Tx.scanPrefix] over the (key, value) pairs the iterator
    yields; the callback's error is returned as it is (shadowing [err]). *)
Fixpoint raw_scanPrefix_loop (fn : string -> string -> option db_error)
    (items : list (string * string)) : option db_error :=
  match items with
  | [] => None
  | (k, v) :: rest =>
      match fn k v with
      | Some err => Some err
      | None => raw_scanPrefix_loop fn rest
      end
  end.

(** [Tx.scanPrefix]; the final filter reads the never-assigned named
    result. *)
Definition raw_scanPrefix (items : list (string * string))
    (fn : string -> string -> option db_error) : option db_error :=
  let named_err : option db_error := None in
  match raw_scanPrefix_loop fn items with
  | Some err => Some err
  | None =>
      match named_err with
      | Some (DBErr ErrAbortScan) => None
      | Some err => Some err
      | None => None
      end
  end.

(** [Tx.ScanObjects]; [items] are the entries the iterator yields after
    [Seek("o_")] while [ValidForPrefix("o_")] holds. *)
Definition raw_ScanObjects (items : list (string * string))
    (fn : string -> Z -> option error) : option db_error :=
  raw_scanPrefix items (fun key value =>
    let '(q, err) := ParseInt value 64 in
    match err with
    | Some e => Some (DBErrParse e)
    | None => option_map DBErr (fn (str_drop (String.length "o_") key) q)
    end).

(** The entries of [kv] under the key prefix [p]. *)
Definition prefix_entries (p : string) (kv : KV) : list (string * string) :=
  List.filter (fun '(k, _) => String.prefix p k) (map_to_list kv).

(** The abstract [Store] describes the key-value map [kv]: object entries
    hold the decimal text of the quantity, the ["version"] key holds the
    marker (absent when it is [""]), quantities are [int64] values. *)
Definition represents (kv : KV) (s : Store) : Prop :=
  (forall o, kv !! ("o_" ++ o) = Sprintf_d <$> objects s !! o) /\
  (kv !! "version" = Some (pversion s) \/
   (kv !! "version" = None /\ pversion s = "")) /\
  map_Forall (fun _ q => int64_min <= q <= int64_max) (objects s).

(* ------------------------------------------------------------------ *)
(** ** Producer input parsing ([parseInput])

    [regexp.MustCompile(`^(\w+)\s+(.+)\s+(\w+)$`)]. Go's regexp returns
    the leftmost match and, among those, the one a backtracking matcher
    finds first, greedy repetitions trying the longest run first. The
    classes are ASCII ([\w] = [0-9A-Za-z_], [\s] = [\t\n\f\r ], [.] = any
    character but a newline), so matching UTF-8 runes or bytes splits the
    input at the same places. *)

Definition is_word (c : ascii) : bool :=
  let n := nat_of_ascii c in
  (((48 <=? n) && (n <=? 57)) || ((65 <=? n) && (n <=? 90)) ||
   ((97 <=? n) && (n <=? 122)) || (n =? 95))%nat.

Definition is_space (c : ascii) : bool :=
  let n := nat_of_ascii c in
  ((n =? 9) || (n =? 10) || (n =? 12) || (n =? 13) || (n =? 32))%nat.

Definition is_dot (c : ascii) : bool := negb (nat_of_ascii c =? 10)%nat.

(** The pattern's items: anchors and (captured) one-or-more repetitions
    of a character class. *)
Inductive re_node :=
  | RBol
  | REol
  | RPlus (cls : ascii -> bool)
  | RCapPlus (cls : ascii -> bool).

Definition inputRegex : list re_node :=
  [RBol; RCapPlus is_word; RPlus is_space; RCapPlus is_dot; RPlus is_space;
   RCapPlus is_word; REol].

(** Length of the longest prefix of [s] in class [p]. *)
Fixpoint run_len (p : ascii -> bool) (s : string) : nat :=
  match s with
  | EmptyString => O
  | String c rest => if p c then S (run_len p rest) else O
  end.

(** [s[:n]]. *)
Fixpoint str_take (n : nat) (s : string) : string :=
  match n, s with
  | O, _ => EmptyString
  | S n', String c rest => String c (str_take n' rest)
  | S _, EmptyString => EmptyString
  end.

(** A greedy repetition backtracks over the run lengths [k, k-1, ..., 1]. *)
Fixpoint try_lens (k : nat) (f : nat -> option (list string))
    : option (list string) :=
  match k with
  | O => None
  | S k' =>
      match f k with
      | Some r => Some r
      | None => try_lens k' f
      end
  end.

(** Backtracking match of the items from a position ([at_start] tells
    whether it is the beginning of the text); returns the captured
    groups. *)
Fixpoint re_match (ns : list re_node) (at_start : bool) (s : string)
    : option (list string) :=
  match ns with
  | [] => Some []
  | RBol :: ns' => if at_start then re_match ns' at_start s else None
  | REol :: ns' =>
      match s with
      | EmptyString => re_match ns' at_start s
      | String _ _ => None
      end
  | RPlus p :: ns' =>
      try_lens (run_len p s) (fun k => re_match ns' false (str_drop k s))
  | RCapPlus p :: ns' =>
      try_lens (run_len p s) (fun k =>
        option_map (cons (str_take k s)) (re_match ns' false (str_drop k s)))
  end.

(** [regex.FindAllStringSubmatch(in, -1)]: [^] (no multi-line flag)
    matches only at the beginning of the text, so a match starts there,
    and [$] makes it end at the end of the text: there is at most one
    match, the whole input followed by its three groups. *)
Definition regex_FindAllStringSubmatch (input : string) : list (list string) :=
  match re_match inputRegex true input with
  | Some groups => [input :: groups]
  | None => []
  end.

(** Errors of [parseInput]. *)
Inductive parse_error :=
  | ErrInputSyntax                        (** does not match [inputRegex] *)
  | ErrInvalidOperation                   (** neither "put" nor "take" *)
  | ErrParsingNumber (e : numError).      (** ["parsing number: %w"] *)

(** [parseInput]: [(op, object, quantity, err)]; the named results stay
    at their zero values on every error return. *)
Definition parseInput (input : string) : string * string * Z * option parse_error :=
  let m := regex_FindAllStringSubmatch input in
  if negb (Nat.eqb (length m) 1) || negb (Nat.eqb (length (hd [] m)) 4) then
    ("", "", 0, Some ErrInputSyntax)
  else
    let g := hd [] m in
    if is_known_label (nth 1 g "") then
      let '(n, err) := ParseInt (nth 2 g "") 32 in
      match err with
      | Some e => ("", "", 0, Some (ErrParsingNumber e))
      | None => (nth 1 g "", nth 3 g "", n, None)
      end
    else ("", "", 0, Some ErrInvalidOperation).

(* ------------------------------------------------------------------ *)
(** ** Command line loop ([cli.ScanLines]) and the two [main] callbacks *)

(** Errors reaching [ScanLines]: [cli.ErrAbortScan], [io.EOF] from the
    reader, or an error of the services. *)
Inductive cli_error :=
  | CliAbortScan
  | CliEOF
  | CliErr (e : error).

Global Instance cli_error_eq_dec : EqDecision cli_error.
Proof. solve_decision. Defined.

(** How a callback (or the loop) ends: it returns, it panics, or it is
    still retrying when the model's retry bound is reached. *)
Inductive outcome (S : Type) :=
  | Returned (st : S) (err : option cli_error)
  | Panicked
  | OutOfFuel.
Arguments Returned {S} st err.
Arguments Panicked {S}.
Arguments OutOfFuel {S}.

Definition newline : ascii := "010"%char.

(** [strings.Replace(ln, "\n", "", -1)]. *)
Fixpoint remove_newlines (s : string) : string :=
  match s with
  | EmptyString => EmptyString
  | String c rest =>
      if Ascii.eqb c newline then remove_newlines rest
      else String c (remove_newlines rest)
  end.

(** The loop of [cli.ScanLines] over the bytes of standard input:
    [reader.ReadString('\n')] collects bytes in [buf] up to and including
    the next newline; at the end of the input it returns what it read with
    [io.EOF], which [ScanLines] returns. A callback error ends the loop,
    [ErrAbortScan] turning into [nil]. *)
Fixpoint ScanLines_loop {S} (onInput : S -> string -> outcome S) (buf : string)
    (input : string) (st : S) : outcome S :=
  match input with
  | EmptyString => Returned st (Some CliEOF)
  | String c rest =>
      if Ascii.eqb c newline then
        let ln := remove_newlines (buf ++ String c "") in
        match onInput st ln with
        | Returned st' None => ScanLines_loop onInput "" rest st'
        | Returned st' (Some err) =>
            Returned st' (if decide (err = CliAbortScan) then None else Some err)
        | Panicked => Panicked
        | OutOfFuel => OutOfFuel
        end
      else ScanLines_loop onInput (buf ++ String c "") rest st
  end.

(** [cli.ScanLines]. *)
Definition ScanLines {S} (onInput : S -> string -> outcome S) (input : string)
    (st : S) : outcome S :=
  ScanLines_loop onInput "" input st.

(** The callback of the consumer's [main]: "exit" aborts the scan,
    "print" runs [ScanDB] with callbacks that print and return [true],
    anything else is reported as unknown. *)
Definition Consumer_onInput (s : Store) (ln : string) : outcome Store :=
  if String.eqb ln "exit" then Returned s (Some CliAbortScan)
  else if String.eqb ln "print" then
    match Consumer_ScanDB (fun _ => true) (fun _ _ => true) s with
    | (s', Ok _) => Returned s' None
    | (s', Err e) => Returned s' (Some (CliErr e))
    end
  else Returned s None.

(** The producer's environment per command: the retry bound of
    [TryAppend], the batches other writers append, and the version the
    log assigns, each as a function of the log. *)
Record PEnv := mkPEnv {
  env_fuel : nat;
  env_others : Log -> list Log;
  env_fresh : Log -> string
}.

(** The callback of the producer's [main]: "exit" aborts the scan; an
    input [parseInput] rejects is logged and skipped; "put" returns
    [Put]'s error; "take" skips [ErrInsuffQuant] and returns any other
    error of [Take]; any other operation panics. [Take] is the run whose
    commit succeeds: the command lines studied below either fail before
    [T] would commit or leave [T] without writes, and badger commits a
    transaction without writes without error. *)
Definition Producer_onInput (env : PEnv) (w : World) (ln : string) : outcome World :=
  if String.eqb ln "exit" then Returned w (Some CliAbortScan)
  else
    let '(op, obj, quant, err) := parseInput ln in
    match err with
    | Some _ => Returned w None
    | None =>
        if String.eqb op "put" then
          let '(w', r) := Put (env_fresh env (wlog w)) obj quant w in
          match r with
          | Ok _ => Returned w' None
          | Err e => Returned w' (Some (CliErr e))
          end
        else if String.eqb op "take" then
          match Take (env_fuel env) (env_others env (wlog w))
                  (env_fresh env (wlog w)) obj quant w with
          | None => OutOfFuel
          | Some (w', Ok _) => Returned w' None
          | Some (w', Err e) =>
              if decide (e = ErrInsuffQuant) then Returned w' None
              else Returned w' (Some (CliErr e))
          end
        else Panicked
    end.

(* ------------------------------------------------------------------ *)
(** ** The background loops ([Consumer.Run], [Producer.Run])

    [Client.Listen] calls its callback once per change notification and
    returns its own result when it ends (on cancellation); [updates] holds
    the log as each notification finds it, [lerr] the result [Listen]
    returns, of a type [L] of its own. *)

(** [Consumer.Run]: the initial [Sync] (its error shadows nothing and is
    returned wrapped), then [Listen]. The callback assigns every [Sync]
    result to the named result [err]; [return c.c.Listen(...)] then sets
    [err] to [Listen]'s result. *)
Definition Consumer_Run {L} (lg0 : Log) (updates : list Log) (lerr : option L)
    (s : Store) : Store * option (error + L) :=
  match Consumer_Sync lg0 s with
  | (s1, Err e) => (s1, Some (inl e))
  | (s1, Ok _) =>
      let '(s2, err) :=
        fold_left (fun '(st, _) lg =>
                     match Consumer_Sync lg st with
                     | (st', Err e) => (st', Some (inl e))
                     | (st', Ok _) => (st', None)
                     end) updates (s1, (None : option (error + L))) in
      let err := option_map inr lerr in
      (s2, err)
  end.

(** [Producer.Run]: the same loop around [p.Sync(ctx, nil)], which opens
    its own transaction. *)
Definition Producer_Run {L} (lg0 : Log) (updates : list Log) (lerr : option L)
    (s : Store) : Store * option (error + L) :=
  match Producer_Sync lg0 false s with
  | (s1, Err e) => (s1, Some (inl e))
  | (s1, Ok _) =>
      let '(s2, err) :=
        fold_left (fun '(st, _) lg =>
                     match Producer_Sync lg false st with
                     | (st', Err e) => (st', Some (inl e))
                     | (st', Ok _) => (st', None)
                     end) updates (s1, (None : option (error + L))) in
      let err := option_map inr lerr in
      (s2, err)
  end.

(** Auxiliary: a string of decimal digits and its value read from the
    left, starting from [n]. *)
Fixpoint all_digits (s : string) : bool :=
  match s with
  | EmptyString => true
  | String c rest => is_digit c && all_digits rest
  end.

Fixpoint dec_value (n : Z) (s : string) : Z :=
  match s with
  | EmptyString => n
  | String c rest => dec_value (n * 10 + digit_val c) rest
  end.

(** Auxiliary: every character of [s] is in class [p]. *)
Fixpoint str_all (p : ascii -> bool) (s : string) : bool :=
  match s with
  | EmptyString => true
  | String c rest => p c && str_all p rest
  end.

(** Auxiliary: [m] blanks. *)
Fixpoint spaces (m : nat) : string :=
  match m with
  | O => EmptyString
  | S m' => String " "%char (spaces m')
  end.

(** Auxiliary: the capture classes of a pattern, in order. *)
Fixpoint caps (ns : list re_node) : list (ascii -> bool) :=
  match ns with
  | [] => []
  | RCapPlus p :: ns' => p :: caps ns'
  | _ :: ns' => caps ns'
  end.

(** Auxiliary: a line holds no newline byte. *)
Definition no_newline (s : string) : bool :=
  str_all (fun c => negb (Ascii.eqb c newline)) s.

(** Auxiliary: standard input made of the lines [ls], each ended by a
    newline, followed by an unterminated [tail]. *)
Fixpoint join_lines (ls : list string) (tail : string) : string :=
  match ls with
  | [] => tail
  | l :: ls' => (l ++ String newline (join_lines ls' tail))
  end.

(** Auxiliary: a callback run over a list of lines, stopping at the first
    error ([ErrAbortScan] becoming [nil]) and ending with [io.EOF]. *)
Fixpoint run_lines {S} (onInput : S -> string -> outcome S) (ls : list string)
    (st : S) : outcome S :=
  match ls with
  | [] => Returned st (Some CliEOF)
  | l :: ls' =>
      match onInput st l with
      | Returned st' None => run_lines onInput ls' st'
      | Returned st' (Some err) =>
          Returned st' (if decide (err = CliAbortScan) then None else Some err)
      | Panicked => Panicked
      | OutOfFuel => OutOfFuel
      end
  end.

(** Auxiliary: the line "op number object" typed at the producer. *)
Definition typed_line (op : string) (n : Z) (obj : string) : string :=
  op ++ " " ++ Sprintf_d n ++ " " ++ obj.

(* ------------------------------------------------------------------ *)
(** ** General lemmas *)

Lemma wrap64_range z : int64_min <= wrap64 z <= int64_max.
Proof.
  unfold wrap64, int64_min, int64_max.
  pose proof (Z.mod_pos_bound (z + 2 ^ 63) (2 ^ 64)) as H.
  assert (2 ^ 64 = 2 * 2 ^ 63) as E by reflexivity.
  lia.
Qed.

Lemma wrap64_id z : int64_min <= z <= int64_max -> wrap64 z = z.
Proof.
  unfold wrap64, int64_min, int64_max; intros Hz.
  rewrite Z.mod_small; [lia|].
  assert (2 ^ 64 = 2 * 2 ^ 63) as E by reflexivity.
  lia.
Qed.

Lemma String_eqb_refl' (a : string) : String.eqb a a = true.
Proof. apply String.eqb_eq; reflexivity. Qed.

Lemma String_eqb_neq (a b : string) : a <> b -> String.eqb a b = false.
Proof. intros H; apply String.eqb_neq; exact H. Qed.

Lemma Decode_Ok e ev :
  Decode e = Ok ev ->
  (ev_Label e = "put" \/ ev_Label e = "take") /\
  exists p, ev_PayloadJSON e = Some p /\
            ev = mkEvent (ev_Label e) (pl_object p) (pl_quantity p).
Proof.
  unfold Decode, is_known_label.
  destruct (String.eqb_spec (ev_Label e) "put") as [Hp|Hp];
  destruct (String.eqb_spec (ev_Label e) "take") as [Ht|Ht]; simpl;
    destruct (ev_PayloadJSON e) as [p|]; intros H; try discriminate;
    inversion H; subst; split; eauto; tauto.
Qed.

Lemma Consumer_apply_Ok e ev s :
  Decode e = Ok ev -> Consumer_apply e s = (apply_result e ev s, Ok tt).
Proof.
  intros H. unfold Consumer_apply, apply_result, bind. rewrite H.
  unfold Tx_GetQuantity.
  destruct (new_quantity _ _ _ <? 1); reflexivity.
Qed.

Lemma Consumer_apply_Err e err s :
  Decode e = Err err -> Consumer_apply e s = (s, Err err).
Proof. intros H. unfold Consumer_apply, bind. rewrite H. reflexivity. Qed.

Lemma Producer_apply_is_Consumer_apply : Producer_apply = Consumer_apply.
Proof. reflexivity. Qed.

Lemma apply_result_inv e ev s :
  store_inv s -> store_inv (apply_result e ev s).
Proof.
  unfold store_inv, apply_result; simpl; intros Hs.
  destruct (Z.ltb_spec (new_quantity (ev_Label e)
              (default 0 (objects s !! Object ev)) (Quantity ev)) 1) as [Hl|Hl].
  - apply map_Forall_delete; exact Hs.
  - apply map_Forall_insert_2; [|exact Hs].
    split; [lia|].
    revert Hl; unfold new_quantity.
    destruct (String.eqb _ "take"); [pose proof (wrap64_range
      (default 0 (objects s !! Object ev) - Quantity ev)); lia|].
    destruct (String.eqb _ "put"); [pose proof (wrap64_range
      (default 0 (objects s !! Object ev) + Quantity ev)); lia|].
    lia.
Qed.

Lemma Consumer_apply_inv e s :
  store_inv s -> store_inv (fst (Consumer_apply e s)).
Proof.
  intros Hs. destruct (Decode e) as [ev|err] eqn:HD.
  - rewrite (Consumer_apply_Ok _ _ _ HD). apply apply_result_inv; exact Hs.
  - rewrite (Consumer_apply_Err _ _ _ HD). exact Hs.
Qed.

Lemma replay_inv es s :
  store_inv s -> store_inv (fst (replay Consumer_apply es s)).
Proof.
  revert s; induction es as [|e es IH]; intros s Hs; simpl; [exact Hs|].
  unfold bind.
  pose proof (Consumer_apply_inv e s Hs) as He.
  destruct (Consumer_apply e s) as [s1 [u|err]]; simpl in *.
  - apply IH; exact He.
  - exact He.
Qed.

Lemma empty_store_inv : store_inv empty_store.
Proof. unfold store_inv; simpl. apply map_Forall_empty. Qed.

(* ------------------------------------------------------------------ *)
(** ** Claims: aggregate apply *)

(** C1: replaying any sequence of events from the empty projection through
    [apply] (consumer's or producer's) leaves only objects with a stored
    quantity of at least 1; and an apply step whose new quantity is below 1
    deletes the object's entry instead of storing it. *)
Theorem C1_replay_retains_positive :
  (forall (es : list client_Event) (k : string) (q : Z),
     objects (fst (replay Consumer_apply es empty_store)) !! k = Some q ->
     1 <= q) /\
  (forall (es : list client_Event) (k : string) (q : Z),
     objects (fst (replay Producer_apply es empty_store)) !! k = Some q ->
     1 <= q) /\
  (forall (e : client_Event) (ev : Event) (s : Store),
     Decode e = Ok ev ->
     new_quantity (ev_Label e) (default 0 (objects s !! Object ev))
       (Quantity ev) < 1 ->
     objects (fst (Consumer_apply e s)) = delete (Object ev) (objects s)).
Proof.
  assert (Hc : forall (es : list client_Event) (k : string) (q : Z),
     objects (fst (replay Consumer_apply es empty_store)) !! k = Some q ->
     1 <= q).
  { intros es k q Hk.
    pose proof (replay_inv es empty_store empty_store_inv) as Hi.
    exact (proj1 (Hi k q Hk)). }
  split; [exact Hc|]. split.
  - rewrite Producer_apply_is_Consumer_apply. exact Hc.
  - intros e ev s HD Hlt.
    rewrite (Consumer_apply_Ok _ _ _ HD). unfold apply_result; simpl.
    apply Z.ltb_lt in Hlt. rewrite Hlt. reflexivity.
Qed.

Lemma C1_replay_retains_positive_witness :
  (objects (fst (replay Consumer_apply
     [mkClientEvent "1" "put" (Some (mkPayload "apple" 5))] empty_store))
     !! "apple" = Some 5 -> 1 <= 5) /\
  (objects (fst (replay Producer_apply
     [mkClientEvent "1" "put" (Some (mkPayload "apple" 5))] empty_store))
     !! "apple" = Some 5 -> 1 <= 5) /\
  (Decode (mkClientEvent "2" "take" (Some (mkPayload "apple" 5)))
     = Ok (mkEvent "take" "apple" 5) /\
   new_quantity "take" 5 5 < 1 /\
   objects (fst (Consumer_apply
     (mkClientEvent "2" "take" (Some (mkPayload "apple" 5)))
     (mkStore {[ "apple" := 5 ]} "1")))
   = delete "apple" {[ "apple" := 5 ]}).
Proof.
  destruct C1_replay_retains_positive as [H1 [H2 H3]].
  split; [intros Hq; exact (H1 _ _ _ Hq)|].
  split; [intros Hq; exact (H2 _ _ _ Hq)|].
  assert (HD : Decode (mkClientEvent "2" "take" (Some (mkPayload "apple" 5)))
     = Ok (mkEvent "take" "apple" 5)) by reflexivity.
  assert (HN : new_quantity "take" 5 5 < 1) by (vm_compute; reflexivity).
  split; [exact HD|]. split; [exact HN|].
  pose proof (H3 _ _ (mkStore {[ "apple" := 5 ]} "1") HD) as H.
  simpl in H. rewrite H; [reflexivity|]. vm_compute. reflexivity.
Defined.

(** C2 (counterexample): the quantity arithmetic is Go [int64]. With
    "apple" at [int64_max] (reached by one put from the empty projection),
    a put of 1 gives [int64_max + 1 >= 1], yet the entry is deleted
    because the sum wraps to a negative value. *)
Lemma C2_counterexample :
  let put_max := mkClientEvent "1" "put" (Some (mkPayload "apple" int64_max)) in
  let put_one := mkClientEvent "2" "put" (Some (mkPayload "apple" 1)) in
  let s := fst (Consumer_apply put_max empty_store) in
  objects s !! "apple" = Some int64_max /\
  1 <= int64_max + 1 /\
  objects (fst (Consumer_apply put_one s)) !! "apple" = None /\
  objects (fst (Consumer_apply put_one s)) !! "apple" <> Some (int64_max + 1).
Proof.
  vm_compute. split; [reflexivity|]. split; [discriminate|].
  split; [reflexivity|]. discriminate.
Qed.

(** C2 (amended): applying a decodable event [E] to a projection where the
    object's quantity is [Q] ([0] when absent) computes [Q' = Q - E.quantity]
    for take and [Q + E.quantity] for put in 64-bit wrap-around arithmetic
    (equal to the exact value whenever that lies in the int64 range); the
    entry is deleted when [Q' < 1] and set to [Q'] otherwise, and in both
    cases the version marker becomes [E]'s version. Consumer and producer
    behave alike. *)
Theorem C2_apply_step_int64 (e : client_Event) (ev : Event) (s : Store) :
  Decode e = Ok ev ->
  let Q := default 0 (objects s !! Object ev) in
  let exact := if String.eqb (Operation ev) "take" then Q - Quantity ev
               else Q + Quantity ev in
  let Q' := wrap64 exact in
  (Operation ev = "take" \/ Operation ev = "put") /\
  (int64_min <= exact <= int64_max -> Q' = exact) /\
  Consumer_apply e s =
    (mkStore (if Q' <? 1 then delete (Object ev) (objects s)
              else <[Object ev := Q']> (objects s)) (ev_Version e), Ok tt) /\
  Producer_apply e s = Consumer_apply e s.
Proof.
  intros HD. pose proof (Decode_Ok _ _ HD) as [Hl [p [Hp ->]]].
  cbn zeta; simpl.
  split; [tauto|]. split; [apply wrap64_id|].
  split; [|reflexivity].
  rewrite (Consumer_apply_Ok _ _ _ HD). unfold apply_result, new_quantity; simpl.
  destruct Hl as [Hl|Hl]; rewrite Hl; reflexivity.
Qed.

Lemma C2_apply_step_int64_witness :
  let e := mkClientEvent "1" "put" (Some (mkPayload "apple" 5)) in
  Decode e = Ok (mkEvent "put" "apple" 5) /\
  Consumer_apply e empty_store = (mkStore {[ "apple" := 5 ]} "1", Ok tt).
Proof.
  cbn zeta. split; [reflexivity|].
  destruct (C2_apply_step_int64
              (mkClientEvent "1" "put" (Some (mkPayload "apple" 5)))
              (mkEvent "put" "apple" 5) empty_store eq_refl)
    as [_ [_ [H _]]].
  rewrite H. vm_compute. reflexivity.
Defined.

(* ------------------------------------------------------------------ *)
(** ** Claims: codec, validation, read query *)

(** C8: [Decode] rejects every wire label other than "put"/"take" with the
    unknown-event-type error (whatever the payload), [Encode] rejects every
    other operation tag with the same error, and for an accepted label with
    a parsable payload [Decode] sets the operation to the label and takes
    object and quantity from the payload. *)
Theorem C8_codec_labels :
  (forall (i : client_Event),
     ev_Label i <> "put" -> ev_Label i <> "take" ->
     Decode i = Err ErrUnknownEventType) /\
  (forall (ev : Event),
     Operation ev <> "put" -> Operation ev <> "take" ->
     Encode ev = Err ErrUnknownEventType) /\
  (forall (i : client_Event) (p : Payload),
     (ev_Label i = "put" \/ ev_Label i = "take") ->
     ev_PayloadJSON i = Some p ->
     Decode i = Ok (mkEvent (ev_Label i) (pl_object p) (pl_quantity p))).
Proof.
  split; [|split].
  - intros i Hp Ht. unfold Decode, is_known_label.
    rewrite (String_eqb_neq _ _ Hp), (String_eqb_neq _ _ Ht). reflexivity.
  - intros ev Hp Ht. unfold Encode, is_known_label.
    rewrite (String_eqb_neq _ _ Hp), (String_eqb_neq _ _ Ht). reflexivity.
  - intros i p Hl Hpl. unfold Decode, is_known_label. rewrite Hpl.
    destruct Hl as [Hl|Hl]; rewrite Hl; reflexivity.
Qed.

Lemma C8_codec_labels_witness :
  Decode (mkClientEvent "7" "delete" (Some (mkPayload "apple" 1)))
    = Err ErrUnknownEventType /\
  Encode (mkEvent "delete" "apple" 1) = Err ErrUnknownEventType /\
  Decode (mkClientEvent "7" "take" (Some (mkPayload "apple" 1)))
    = Ok (mkEvent "take" "apple" 1).
Proof.
  destruct C8_codec_labels as [H1 [H2 H3]].
  split; [apply H1; simpl; discriminate|].
  split; [apply H2; simpl; discriminate|].
  exact (H3 (mkClientEvent "7" "take" (Some (mkPayload "apple" 1)))
           (mkPayload "apple" 1) (or_intror eq_refl) eq_refl).
Defined.

Lemma validation_rejects (object : string) (quantity : Z) :
  (object = "" \/ quantity < 0) ->
  exists err,
    ValidateInput object quantity = Some err /\
    (forall (fresh : string) (w : World),
       Put fresh object quantity w = (w, Err err)) /\
    (forall (fuel : nat) (others : list Log) (fresh : string) (w : World),
       Take fuel others fresh object quantity w = Some (w, Err err)).
Proof.
  intros H.
  assert (exists err, ValidateInput object quantity = Some err) as [err Herr].
  { unfold ValidateInput.
    destruct (String.eqb_spec object "") as [->|Hne]; [eauto|].
    destruct H as [H|H]; [contradiction|].
    apply Z.ltb_lt in H. rewrite H. eauto. }
  exists err. split; [exact Herr|]. split.
  - intros fresh w. unfold Put. rewrite Herr. reflexivity.
  - intros fuel others fresh w. unfold Take. rewrite Herr. reflexivity.
Qed.

(** C10: [ValidateInput] rejects an empty object or a negative quantity,
    and [Put] and [Take] then return that error with the store and the log
    untouched (no transaction, no append); a quantity of 0 with a
    non-empty object passes validation. *)
Theorem C10_validation_before_tx :
  (forall (object : string) (quantity : Z),
     (object = "" \/ quantity < 0) ->
     exists err,
       ValidateInput object quantity = Some err /\
       (forall (fresh : string) (w : World),
          Put fresh object quantity w = (w, Err err)) /\
       (forall (fuel : nat) (others : list Log) (fresh : string) (w : World),
          Take fuel others fresh object quantity w = Some (w, Err err))) /\
  (forall (object : string), object <> "" -> ValidateInput object 0 = None).
Proof.
  split; [exact validation_rejects|].
  intros object H. unfold ValidateInput.
  rewrite (String_eqb_neq _ _ H). reflexivity.
Qed.

Lemma C10_validation_before_tx_witness :
  (exists err, ValidateInput "" 3 = Some err /\
     Put "1" "" 3 (mkWorld empty_store []) = (mkWorld empty_store [], Err err) /\
     Take 0 [] "1" "" 3 (mkWorld empty_store [])
       = Some (mkWorld empty_store [], Err err)) /\
  ValidateInput "apple" 0 = None.
Proof.
  destruct C10_validation_before_tx as [H1 H2].
  split.
  - destruct (H1 "" 3 (or_introl eq_refl)) as [err [Ha [Hb Hc]]].
    exists err. split; [exact Ha|]. split; [apply Hb|apply Hc].
  - apply H2. discriminate.
Defined.

(** C9: halting the object enumeration of [ScanDB] early makes it fail.
    The callback returns [ErrAbortScan]; [Tx.scanPrefix] returns it from
    inside the loop through the shadowing [err], so its
    [err != ErrAbortScan] filter never sees it; [WithinTx] then discards
    the transaction and [ScanDB] returns the error to the caller. This holds
    for every projection with at least one object. *)
Theorem C9_early_halt_returns_error (s : Store) :
  objects s <> ∅ ->
  Consumer_ScanDB (fun _ => true) (fun _ _ => false) s = (s, Err ErrAbortScan).
Proof.
  intros Hne. unfold Consumer_ScanDB, DB_WithinTx, bind, Tx_GetProjectionVersion.
  simpl. unfold Tx_ScanObjects, Tx_scanPrefix.
  destruct (map_to_list (objects s)) as [|[k v] rest] eqn:E.
  - apply map_to_list_empty_iff in E. contradiction.
  - reflexivity.
Qed.

Lemma C9_early_halt_returns_error_witness :
  Consumer_ScanDB (fun _ => true) (fun _ _ => false)
    (mkStore {[ "apple" := 5 ]} "1")
  = (mkStore {[ "apple" := 5 ]} "1", Err ErrAbortScan).
Proof.
  apply C9_early_halt_returns_error. simpl.
  apply map_non_empty_singleton.
Defined.

(** Halting at the version callback, in contrast, returns no error. *)
Lemma ScanDB_halt_at_version (s : Store) (onObject : string -> Z -> bool) :
  Consumer_ScanDB (fun _ => false) onObject s = (s, Ok tt).
Proof. reflexivity. Qed.

(* ------------------------------------------------------------------ *)
(** ** Lemmas on the log and sync passes *)

Lemma scan_from_skip_prefix (v : string) (l1 l2 : Log) :
  ~ In v (map ev_Version l1) -> scan_from v (l1 ++ l2)%list = scan_from v l2.
Proof.
  induction l1 as [|e l1 IH]; simpl; intros Hn; [reflexivity|].
  rewrite String_eqb_neq; [apply IH; tauto|].
  intros Heq; apply Hn; left; exact Heq.
Qed.

Lemma scan_from_here (x : client_Event) (r : Log) :
  scan_from (ev_Version x) (x :: r) = Some (x :: r).
Proof. simpl. rewrite String_eqb_refl'. reflexivity. Qed.

Lemma scan_each_consumer (v : string) (es : list client_Event) (s : Store) :
  scan_each (fun (_ : unit) e => if String.eqb v (ev_Version e) then ret tt
                                 else Consumer_apply e) tt es s
  = replay Consumer_apply (not_marker v es) s.
Proof.
  revert s; induction es as [|e es IH]; intros s; [reflexivity|].
  unfold not_marker in *; simpl.
  destruct (String.eqb v (ev_Version e)); simpl.
  - apply IH.
  - unfold bind. destruct (Consumer_apply e s) as [s1 [[]|err]]; [apply IH|reflexivity].
Qed.

Lemma scan_each_producer (v : string) (es : list client_Event) (s : Store)
    (acc : string) :
  let r := scan_each (fun latestVersion e =>
             if String.eqb v (ev_Version e) then ret latestVersion
             else let! _ := Producer_apply e in ret (ev_Version e)) acc es s in
  (fst r, forget (snd r)) = replay Consumer_apply (not_marker v es) s.
Proof.
  revert s acc; induction es as [|e es IH]; intros s acc; [reflexivity|].
  unfold not_marker in *; simpl.
  destruct (String.eqb v (ev_Version e)); simpl.
  - apply IH.
  - unfold bind. rewrite Producer_apply_is_Consumer_apply.
    destruct (Consumer_apply e s) as [s1 [[]|err]]; [apply IH|reflexivity].
Qed.

Lemma Consumer_Sync_body_scan (lg : Log) (s : Store) (es : Log) :
  let v := pversion s in
  let sv := if String.eqb v "" then VersionInitial lg else v in
  sv <> "0" -> scan_from sv lg = Some es ->
  Consumer_Sync_body lg s = replay Consumer_apply (not_marker v es) s.
Proof.
  cbn zeta. intros Hsv Hscan.
  unfold Consumer_Sync_body, bind, Tx_GetProjectionVersion.
  rewrite (String_eqb_neq _ _ Hsv). unfold Client_Scan. rewrite Hscan.
  apply scan_each_consumer.
Qed.

Lemma Producer_sync_forget (lg : Log) (s : Store) :
  (fst (Producer_sync lg s), forget (snd (Producer_sync lg s)))
  = Consumer_Sync_body lg s.
Proof.
  unfold Producer_sync, Consumer_Sync_body, bind, Tx_GetProjectionVersion.
  destruct (String.eqb (if String.eqb (pversion s) "" then VersionInitial lg
                        else pversion s) "0"); [reflexivity|].
  unfold Client_Scan.
  destruct (scan_from _ lg) as [es|]; [|reflexivity].
  rewrite scan_each_consumer. apply scan_each_producer.
Qed.

Lemma DB_WithinTx_forget {A} (fn : TxM A) (s : Store) :
  (fst (DB_WithinTx ReadWrite fn s), forget (snd (DB_WithinTx ReadWrite fn s)))
  = DB_WithinTx ReadWrite (fun s0 => (fst (fn s0), forget (snd (fn s0)))) s.
Proof. unfold DB_WithinTx. destruct (fn s) as [s1 [a|err]]; reflexivity. Qed.

Lemma Producer_Sync_forget (lg : Log) (s : Store) :
  (fst (Producer_Sync lg false s), forget (snd (Producer_Sync lg false s)))
  = Consumer_Sync lg s.
Proof.
  unfold Producer_Sync, Consumer_Sync. rewrite DB_WithinTx_forget.
  unfold DB_WithinTx. rewrite <- (Producer_sync_forget lg s).
  destruct (Producer_sync lg s) as [s1 [a|err]]; reflexivity.
Qed.

Lemma replay_app (l1 l2 : list client_Event) (s s1 : Store) :
  replay Consumer_apply l1 s = (s1, Ok tt) ->
  replay Consumer_apply (l1 ++ l2)%list s = replay Consumer_apply l2 s1.
Proof.
  revert s; induction l1 as [|e l1 IH]; intros s H; simpl in *.
  - inversion H; reflexivity.
  - unfold bind in *. destruct (Consumer_apply e s) as [s0 [[]|err]];
      [apply IH; exact H|discriminate].
Qed.

Lemma replay_decodes (l : list client_Event) (s : Store) :
  Forall decodes l ->
  exists s', replay Consumer_apply l s = (s', Ok tt) /\
    pversion s' = match last l with
                  | None => pversion s
                  | Some e => ev_Version e
                  end.
Proof.
  revert s; induction l as [|e l IH]; intros s Hl; simpl.
  - exists s; split; reflexivity.
  - inversion Hl as [|? ? [ev HD] Hrest]; subst.
    unfold bind. rewrite (Consumer_apply_Ok _ _ _ HD).
    destruct (IH (apply_result e ev s) Hrest) as [s' [Hr Hv]].
    exists s'; split; [exact Hr|].
    destruct l as [|c l]; [exact Hv|].
    change (last (e :: c :: l)) with (last (c :: l)).
    destruct (last (c :: l)) as [x|] eqn:E; [exact Hv|].
    apply last_None in E. discriminate.
Qed.

Lemma not_marker_all (v : string) (l : list client_Event) :
  Forall (fun e => ev_Version e <> v) l -> not_marker v l = l.
Proof.
  induction l as [|e l IH]; intros H; [reflexivity|].
  inversion H; subst. unfold not_marker in *; simpl.
  rewrite (String_eqb_neq v (ev_Version e)); [|congruence].
  simpl. f_equal. apply IH; assumption.
Qed.

Lemma log_wf_prefix (l1 l2 : Log) : log_wf (l1 ++ l2)%list -> log_wf l1.
Proof.
  intros [Hn Hf]. rewrite map_app in Hn. split.
  - exact (List.NoDup_app_remove_r _ _ Hn).
  - apply Forall_app in Hf. tauto.
Qed.

Lemma Forall_prefix {A} (P : A -> Prop) (l1 l2 : list A) :
  Forall P (l1 ++ l2)%list -> Forall P l1.
Proof. intros H. apply Forall_app in H. tauto. Qed.

(** A sync pass right after the log grew by one event [e], on the store
    the earlier passes produced, applies exactly [e]. *)
Lemma sync_after_prefix (seen : Log) (e : client_Event) (s : Store) :
  log_wf (seen ++ [e])%list -> Forall decodes (seen ++ [e])%list ->
  replay Consumer_apply seen empty_store = (s, Ok tt) ->
  Consumer_Sync (seen ++ [e])%list s = replay Consumer_apply [e] s.
Proof.
  intros Hwf Hdec Hs.
  assert (He : decodes e) by (apply Forall_app in Hdec; destruct Hdec as [_ H];
                              inversion H; assumption).
  destruct (replay_decodes [e] s (ltac:(constructor; [exact He|constructor]) : Forall decodes [e]))
    as [s1 [Hr1 _]].
  destruct Hwf as [Hnd Hvs].
  induction seen as [|x seen' _] using rev_ind.
  - simpl in Hs. inversion Hs; subst s. simpl in Hvs.
    inversion Hvs as [|? ? [Hne H0] _]; subst.
    unfold Consumer_Sync, DB_WithinTx. simpl app.
    rewrite (Consumer_Sync_body_scan [e] empty_store [e]);
      [| simpl; exact H0 | simpl; apply scan_from_here].
    simpl pversion.
    rewrite not_marker_all; [|constructor; [congruence|constructor]].
    rewrite Hr1. reflexivity.
  - destruct (replay_decodes (seen' ++ [x])%list empty_store
                (Forall_prefix _ _ _ Hdec)) as [s0 [Hr0 Hv0]].
    rewrite Hs in Hr0. inversion Hr0; subst s0.
    rewrite last_snoc in Hv0.
    rewrite <- app_assoc in Hnd, Hvs |- *. simpl in Hnd, Hvs |- *.
    rewrite map_app in Hnd. simpl in Hnd.
    pose proof (List.NoDup_remove_2 _ _ _ Hnd) as Hx.
    rewrite in_app_iff in Hx.
    apply Forall_app in Hvs. destruct Hvs as [_ Hvs].
    inversion Hvs as [|? ? [Hxne Hx0] _]; subst.
    unfold Consumer_Sync, DB_WithinTx.
    rewrite (Consumer_Sync_body_scan _ s [x; e]).
    + rewrite Hv0. unfold not_marker; cbn [List.filter].
      rewrite String_eqb_refl'.
      rewrite (String_eqb_neq (ev_Version x) (ev_Version e));
        [|intros Heq; apply Hx; right; left; symmetry; exact Heq].
      cbn [negb].
      change (match replay Consumer_apply [e] s with
              | (s', Ok a) => (s', Ok a)
              | (_, Err err) => (s, Err err)
              end = replay Consumer_apply [e] s).
      rewrite Hr1. reflexivity.
    + rewrite Hv0, (String_eqb_neq _ _ Hxne). exact Hx0.
    + rewrite Hv0, (String_eqb_neq _ _ Hxne).
      rewrite scan_from_skip_prefix; [apply scan_from_here|].
      intros Hin; apply Hx; left; exact Hin.
Qed.

Lemma one_at_a_time_gen (rest seen : Log) (s : Store) :
  log_wf (seen ++ rest)%list -> Forall decodes (seen ++ rest)%list ->
  replay Consumer_apply seen empty_store = (s, Ok tt) ->
  sync_one_at_a_time seen rest s
  = fst (replay Consumer_apply (seen ++ rest)%list empty_store).
Proof.
  revert seen s; induction rest as [|e rest IH]; intros seen s Hwf Hdec Hs.
  - simpl. rewrite app_nil_r, Hs. reflexivity.
  - simpl.
    replace (seen ++ e :: rest)%list with ((seen ++ [e]) ++ rest)%list in *
      by (rewrite <- app_assoc; reflexivity).
    rewrite (sync_after_prefix seen e s (log_wf_prefix _ _ Hwf)
               (Forall_prefix _ _ _ Hdec) Hs).
    assert (He : decodes e).
    { apply Forall_prefix in Hdec. apply Forall_app in Hdec.
      destruct Hdec as [_ H]; inversion H; assumption. }
    destruct (replay_decodes [e] s (ltac:(constructor; [exact He|constructor]) : Forall decodes [e]))
      as [s1 [Hr1 _]].
    rewrite Hr1. simpl. apply IH; [exact Hwf|exact Hdec|].
    rewrite (replay_app seen [e] empty_store s Hs). exact Hr1.
Qed.

Lemma Consumer_Sync_from_empty (lg : Log) :
  log_wf lg -> Forall decodes lg ->
  Consumer_Sync lg empty_store = replay Consumer_apply lg empty_store.
Proof.
  intros [_ Hvs] Hdec.
  destruct lg as [|e0 rest]; [reflexivity|].
  destruct (replay_decodes (e0 :: rest) empty_store Hdec) as [s1 [Hr _]].
  inversion Hvs as [|? ? [Hne H0] _]; subst.
  unfold Consumer_Sync, DB_WithinTx.
  rewrite (Consumer_Sync_body_scan (e0 :: rest) empty_store (e0 :: rest));
    [| simpl; exact H0 | simpl; apply scan_from_here].
  simpl pversion. rewrite not_marker_all.
  - rewrite Hr. reflexivity.
  - eapply Forall_impl; [exact Hvs|]. simpl. intros x [Hx _]. congruence.
Qed.

Lemma head_version_snoc (l : Log) (x : client_Event) :
  head_version (l ++ [x])%list = ev_Version x.
Proof. unfold head_version. rewrite last_snoc. reflexivity. Qed.

(* ------------------------------------------------------------------ *)
(** ** Claims: sync engine *)

(** C4: a sync pass (consumer's or producer's) with local marker [v]
    applies, inside one transaction, exactly the scanned events whose
    version differs from [v], in log order: the event carrying [v] is
    skipped. When the marker already equals the log head, the pass leaves
    the store unchanged. *)
Theorem C4_sync_skips_marker_event :
  (forall (lg : Log) (s : Store) (es : Log),
     let v := pversion s in
     let sv := if String.eqb v "" then VersionInitial lg else v in
     sv <> "0" -> scan_from sv lg = Some es ->
     Consumer_Sync lg s
       = DB_WithinTx ReadWrite (replay Consumer_apply (not_marker v es)) s /\
     (fst (Producer_Sync lg false s), forget (snd (Producer_Sync lg false s)))
       = DB_WithinTx ReadWrite (replay Consumer_apply (not_marker v es)) s) /\
  (forall (lg : Log) (s : Store),
     log_wf lg -> pversion s = head_version lg ->
     Consumer_Sync lg s = (s, Ok tt) /\ fst (Producer_Sync lg false s) = s).
Proof.
  assert (Hscan : forall (lg : Log) (s : Store) (es : Log),
     let v := pversion s in
     let sv := if String.eqb v "" then VersionInitial lg else v in
     sv <> "0" -> scan_from sv lg = Some es ->
     Consumer_Sync lg s
       = DB_WithinTx ReadWrite (replay Consumer_apply (not_marker v es)) s).
  { intros lg s es v sv Hsv Hes. unfold Consumer_Sync, DB_WithinTx.
    rewrite (Consumer_Sync_body_scan lg s es Hsv Hes). reflexivity. }
  split.
  - intros lg s es v sv Hsv Hes.
    rewrite Producer_Sync_forget. split; apply Hscan; assumption.
  - intros lg s Hwf Hv.
    assert (Hc : Consumer_Sync lg s = (s, Ok tt)).
    { destruct lg as [|x l'] using rev_ind.
      - unfold Consumer_Sync, DB_WithinTx, Consumer_Sync_body, bind,
          Tx_GetProjectionVersion.
        simpl in Hv. rewrite Hv. reflexivity.
      - clear IHl'. rewrite head_version_snoc in Hv.
        destruct Hwf as [Hnd Hvs].
        apply Forall_app in Hvs. destruct Hvs as [_ Hvs].
        inversion Hvs as [|? ? [Hxne Hx0] _]; subst.
        rewrite map_app in Hnd. simpl in Hnd.
        pose proof (List.NoDup_remove_2 _ _ _ Hnd) as Hx.
        rewrite app_nil_r in Hx.
        rewrite (Hscan _ s [x]).
        + rewrite Hv. unfold not_marker; cbn [List.filter].
          rewrite String_eqb_refl'. reflexivity.
        + rewrite Hv, (String_eqb_neq _ _ Hxne). exact Hx0.
        + rewrite Hv, (String_eqb_neq _ _ Hxne).
          rewrite scan_from_skip_prefix; [apply scan_from_here|exact Hx]. }
    split; [exact Hc|].
    pose proof (Producer_Sync_forget lg s) as Hp. rewrite Hc in Hp.
    exact (f_equal fst Hp).
Qed.

Lemma C4_sync_skips_marker_event_witness :
  let lg := [mkClientEvent "1" "put" (Some (mkPayload "apple" 5));
             mkClientEvent "2" "take" (Some (mkPayload "apple" 2))] in
  let s1 := mkStore {[ "apple" := 5 ]} "1" in
  let s2 := mkStore {[ "apple" := 3 ]} "2" in
  Consumer_Sync lg s1
    = DB_WithinTx ReadWrite (replay Consumer_apply (not_marker "1" lg)) s1 /\
  Consumer_Sync lg s2 = (s2, Ok tt).
Proof.
  destruct C4_sync_skips_marker_event as [H1 H2]. cbn zeta.
  split.
  - apply (H1 _ (mkStore {[ "apple" := 5 ]} "1")); simpl;
      [discriminate|reflexivity].
  - apply (H2 _ (mkStore {[ "apple" := 3 ]} "2")); [|reflexivity].
    split.
    + simpl. repeat constructor; simpl; intuition discriminate.
    + repeat constructor; discriminate.
Defined.

(** C5: for a log of put/take events, replaying it through one [Sync]
    pass after each append gives the same store (mapping and marker) as a
    single [Sync] pass over the whole log, which is the plain batch replay
    through [apply] from the empty projection; the producer's [apply] is
    the consumer's, and its sync passes yield the same store. *)
Theorem C5_one_at_a_time_equals_batch :
  (forall (lg : Log), log_wf lg -> Forall decodes lg ->
     sync_one_at_a_time [] lg empty_store = fst (Consumer_Sync lg empty_store) /\
     Consumer_Sync lg empty_store = replay Consumer_apply lg empty_store) /\
  Producer_apply = Consumer_apply /\
  (forall (lg : Log) (s : Store),
     fst (Producer_Sync lg false s) = fst (Consumer_Sync lg s)).
Proof.
  split; [|split].
  - intros lg Hwf Hdec.
    pose proof (Consumer_Sync_from_empty lg Hwf Hdec) as Hb.
    split; [|exact Hb].
    rewrite Hb. apply (one_at_a_time_gen lg [] empty_store Hwf Hdec).
    reflexivity.
  - exact Producer_apply_is_Consumer_apply.
  - intros lg s. rewrite <- Producer_Sync_forget. reflexivity.
Qed.

Lemma C5_one_at_a_time_equals_batch_witness :
  let lg := [mkClientEvent "1" "put" (Some (mkPayload "apple" 5));
             mkClientEvent "2" "take" (Some (mkPayload "apple" 5));
             mkClientEvent "3" "put" (Some (mkPayload "pear" 2))] in
  sync_one_at_a_time [] lg empty_store = fst (Consumer_Sync lg empty_store).
Proof.
  destruct C5_one_at_a_time_equals_batch as [H _]. cbn zeta.
  apply H.
  - split.
    + simpl. repeat constructor; simpl; intuition discriminate.
    + repeat constructor; discriminate.
  - repeat constructor; eexists; reflexivity.
Defined.

(* ------------------------------------------------------------------ *)
(** ** Lemmas on the write path *)

Lemma ValidateInput_None (object : string) (quantity : Z) :
  ValidateInput object quantity = None -> object <> "" /\ 0 <= quantity.
Proof.
  unfold ValidateInput.
  destruct (String.eqb_spec object "") as [_|Hne]; [discriminate|].
  destruct (Z.ltb_spec quantity 0); [discriminate|]. auto.
Qed.

Lemma store_inv_quantity (t : Store) (object : string) :
  store_inv t -> 0 <= default 0 (objects t !! object) <= int64_max.
Proof.
  intros Ht. destruct (objects t !! object) as [q|] eqn:E; simpl.
  - unfold store_inv, map_Forall in Ht. pose proof (Ht object q E). lia.
  - unfold int64_max. lia.
Qed.

Lemma Take_build_pure (object : string) (quantity : Z) (t : Store) :
  fst (Take_build object quantity t) = t.
Proof.
  unfold Take_build, bind, Tx_GetQuantity.
  destruct (wrap64 _ <? 0); reflexivity.
Qed.

Lemma Take_build_insuff (object : string) (quantity : Z) (t : Store) :
  store_inv t -> 0 <= quantity <= int64_max ->
  default 0 (objects t !! object) - quantity < 0 ->
  Take_build object quantity t = (t, Err ErrInsuffQuant).
Proof.
  intros Ht Hq Hlt. pose proof (store_inv_quantity t object Ht) as HQ.
  unfold Take_build, bind, Tx_GetQuantity.
  rewrite wrap64_id by (unfold int64_min, int64_max in *; lia).
  apply Z.ltb_lt in Hlt. rewrite Hlt. reflexivity.
Qed.

Lemma Take_build_ok (object : string) (quantity : Z) (t : Store) :
  store_inv t -> 0 <= quantity <= int64_max ->
  quantity <= default 0 (objects t !! object) ->
  Take_build object quantity t
  = (t, Ok (mkEventData "take" (mkPayload object quantity))).
Proof.
  intros Ht Hq Hle. pose proof (store_inv_quantity t object Ht) as HQ.
  unfold Take_build, bind, Tx_GetQuantity.
  rewrite wrap64_id by (unfold int64_min, int64_max in *; lia).
  destruct (Z.ltb_spec (default 0 (objects t !! object) - quantity) 0);
    [lia|reflexivity].
Qed.

(** On an error, [TryAppend] has appended nothing of its own: the log only
    grew by the batches of the other writers. *)
Lemma TryAppend_err_log (fuel : nat) (others : list Log) (fresh assumed : string)
    (build : TxM EventData) (onConflict : Log -> TxM string)
    (lg lg' : Log) (t t' : Store) (err : error) :
  Client_TryAppend fuel others fresh assumed build onConflict lg t
    = Some (lg', t', Err err) ->
  exists k, lg' = (lg ++ concat (firstn k others))%list.
Proof.
  revert others assumed lg t.
  induction fuel as [|fuel IH]; intros others assumed lg t H; simpl in H.
  - destruct (build t) as [t1 [ev|e]].
    + destruct (String.eqb _ _); [discriminate|discriminate].
    + inversion H; subst. exists 0%nat. simpl. rewrite app_nil_r. reflexivity.
  - destruct (build t) as [t1 [ev|e]].
    + destruct (String.eqb _ _); [discriminate|].
      destruct (onConflict _ t1) as [t2 [v'|e]].
      * apply IH in H. destruct H as [k Hk]. subst lg'.
        destruct others as [|o os]; simpl.
        -- exists 0%nat. simpl. destruct k; simpl; rewrite !app_nil_r; reflexivity.
        -- exists (S k). simpl. rewrite app_assoc. reflexivity.
      * inversion H; subst. exists 1%nat.
        destruct others as [|o os]; simpl; rewrite ?app_nil_r; reflexivity.
    + inversion H; subst. exists 0%nat. simpl. rewrite app_nil_r. reflexivity.
Qed.

(** With an event builder that only reads the transaction, every store
    change [TryAppend] makes comes from the conflict handler. *)
Lemma TryAppend_ok_sync (fuel : nat) (others : list Log) (fresh assumed : string)
    (build : TxM EventData) (lg lg' : Log) (t t' : Store) (v : string) :
  (forall t0, fst (build t0) = t0) ->
  Client_TryAppend fuel others fresh assumed build
    (fun lg0 => Producer_Sync lg0 true) lg t = Some (lg', t', Ok v) ->
  rtc sync_step t t'.
Proof.
  intros Hpure. revert others assumed lg t.
  induction fuel as [|fuel IH]; intros others assumed lg t H;
    cbn [Client_TryAppend] in H;
    pose proof (Hpure t) as Ht; destruct (build t) as [t1 [ev|e]];
    simpl in Ht; subst t1.
  - destruct (String.eqb _ _); [|discriminate].
    inversion H; subst. apply rtc_refl.
  - discriminate.
  - destruct (String.eqb _ _); [inversion H; subst; apply rtc_refl|].
    destruct (Producer_Sync _ true t) as [t2 [v'|e]] eqn:Hs; [|discriminate].
    eapply rtc_l; [exists (lg ++ default [] (head others))%list, v'; exact Hs|].
    eapply IH. exact H.
  - discriminate.
Qed.

Lemma scan_each_cons {A} (fn : A -> client_Event -> TxM A) (acc : A)
    (e : client_Event) (es : list client_Event) (t : Store) :
  scan_each fn acc (e :: es) t
  = match fn acc e t with
    | (t1, Ok a) => scan_each fn a es t1
    | (t1, Err err) => (t1, Err err)
    end.
Proof. reflexivity. Qed.

Lemma scan_each_producer_all (v : string) (es : list client_Event)
    (t : Store) (acc : string) :
  Forall (fun e => ev_Version e <> v) es -> Forall decodes es ->
  exists t', replay Consumer_apply es t = (t', Ok tt) /\
    scan_each (fun latestVersion e =>
      if String.eqb v (ev_Version e) then ret latestVersion
      else let! _ := Producer_apply e in ret (ev_Version e)) acc es t
    = (t', Ok (match last es with None => acc | Some e => ev_Version e end)).
Proof.
  revert t acc; induction es as [|e es IH]; intros t acc Hv Hd.
  - exists t. split; reflexivity.
  - inversion Hv as [|? ? Hve Hvs]; inversion Hd as [|? ? [ev HD] Hds]; subst.
    destruct (IH (apply_result e ev t) (ev_Version e) Hvs Hds) as [t' [Hr Hs]].
    exists t'. split.
    + cbn [replay]. unfold bind. rewrite (Consumer_apply_Ok e ev t HD). exact Hr.
    + rewrite scan_each_cons. cbv beta.
      rewrite (String_eqb_neq v (ev_Version e)) by congruence.
      assert (Hstep : (let! _ := Producer_apply e in ret (ev_Version e)) t
                      = (apply_result e ev t, Ok (ev_Version e))).
      { unfold bind. rewrite Producer_apply_is_Consumer_apply.
        rewrite (Consumer_apply_Ok e ev t HD). reflexivity. }
      cbn [negb]. rewrite Hstep. cbv iota. rewrite Hs.
    destruct es as [|c es]; [reflexivity|].
    change (last (e :: c :: es)) with (last (c :: es)).
    destruct (last (c :: es)) as [y|] eqn:E; [reflexivity|].
    apply last_None in E. discriminate.
Qed.

(** The conflict handler of [Take]: a producer sync pass inside the
    caller's transaction whose marker is the event [x] applies exactly the
    events after [x] and returns the new head. *)
Lemma Producer_Sync_after_marker (pre post : Log) (x : client_Event) (t : Store) :
  log_wf (pre ++ x :: post)%list -> Forall decodes post -> post <> [] ->
  pversion t = ev_Version x ->
  exists t', replay Consumer_apply post t = (t', Ok tt) /\
    Producer_Sync (pre ++ x :: post)%list true t
      = (t', Ok (head_version (pre ++ x :: post)%list)) /\
    pversion t' = head_version (pre ++ x :: post)%list.
Proof.
  intros [Hnd Hvs] Hdec Hne Hv.
  rewrite map_app in Hnd. simpl in Hnd.
  pose proof (List.NoDup_remove_2 _ _ _ Hnd) as Hx. rewrite in_app_iff in Hx.
  apply Forall_app in Hvs. destruct Hvs as [_ Hvs].
  inversion Hvs as [|? ? [Hxne Hx0] _]; subst.
  assert (Hpost : Forall (fun e => ev_Version e <> ev_Version x) post).
  { apply List.Forall_forall. intros e He Heq. apply Hx. right.
    rewrite <- Heq. apply in_map. exact He. }
  destruct (scan_each_producer_all (ev_Version x) post t "" Hpost Hdec)
    as [t' [Hr Hs]].
  destruct (replay_decodes post t Hdec) as [t'' [Hr' Hv']].
  rewrite Hr in Hr'. inversion Hr'; subst t''.
  assert (Hlast : exists y, last post = Some y).
  { destruct (last post) as [y|] eqn:E; [eauto|].
    apply last_None in E. contradiction. }
  destruct Hlast as [y Hy]. rewrite Hy in Hs, Hv'.
  assert (Hh : head_version (pre ++ x :: post)%list = ev_Version y).
  { unfold head_version. rewrite last_app_cons.
    destruct post as [|c post]; [contradiction|].
    change (last (x :: c :: post)) with (last (c :: post)).
    rewrite Hy. reflexivity. }
  exists t'. rewrite Hh. split; [exact Hr|]. split; [|exact Hv'].
  unfold Producer_Sync, Producer_sync, bind, Tx_GetProjectionVersion.
  rewrite Hv, (String_eqb_neq _ _ Hxne), (String_eqb_neq _ _ Hx0).
  unfold Client_Scan.
  rewrite scan_from_skip_prefix; [|intros Hin; apply Hx; left; exact Hin].
  rewrite scan_from_here. cbn [scan_each]. rewrite String_eqb_refl'.
  unfold bind at 1, ret at 1. exact Hs.
Qed.

Lemma log_after_head (lg : Log) (others : list Log) (i : nat) :
  log_after (lg ++ default [] (head others))%list (tail others) i
  = log_after lg others (S i).
Proof.
  unfold log_after. destruct others as [|o os]; simpl.
  - rewrite !app_nil_r. destruct i; simpl; rewrite ?app_nil_r; reflexivity.
  - rewrite app_assoc. reflexivity.
Qed.

(** A successful [TryAppend] with an event builder that only reads the
    transaction: the store is the result of the conflict handler's sync
    passes over the logs seen at the [j] conflicts, the first [1..j]
    batches of the other writers, and the built event is appended after
    the [j+1]-th batch. *)
Lemma TryAppend_ok_passes (fuel : nat) (others : list Log) (fresh assumed : string)
    (build : TxM EventData) (lg lg' : Log) (t t' : Store) (v : string) :
  (forall t0, fst (build t0) = t0) ->
  Client_TryAppend fuel others fresh assumed build
    (fun lg0 => Producer_Sync lg0 true) lg t = Some (lg', t', Ok v) ->
  exists j ev, build t' = (t', Ok ev) /\
    sync_passes (map (log_after lg others) (seq 1 j)) t = Some t' /\
    lg' = (log_after lg others (S j) ++
           [mkClientEvent fresh (ed_Label ev) (Some (ed_PayloadJSON ev))])%list.
Proof.
  intros Hpure. revert others assumed lg t.
  induction fuel as [|fuel IH]; intros others assumed lg t H;
    cbn [Client_TryAppend] in H;
    pose proof (Hpure t) as Ht; destruct (build t) as [t1 [ev|e]] eqn:Hb;
    simpl in Ht; subst t1; try discriminate.
  - destruct (String.eqb _ _); [|discriminate].
    injection H as <- <- _. exists 0%nat, ev. split; [exact Hb|]. split; [reflexivity|].
    unfold Client_Append. rewrite <- (log_after_head lg others 0).
    unfold log_after. simpl. rewrite app_nil_r. reflexivity.
  - destruct (String.eqb _ _).
    + injection H as <- <- _. exists 0%nat, ev. split; [exact Hb|]. split; [reflexivity|].
      unfold Client_Append. rewrite <- (log_after_head lg others 0).
      unfold log_after. simpl. rewrite app_nil_r. reflexivity.
    + destruct (Producer_Sync _ true t) as [t2 [v'|e]] eqn:Hs; [|discriminate].
      destruct (IH _ _ _ _ H) as [j [ev' [Hb' [Hp Hlg]]]].
      exists (S j), ev'. split; [exact Hb'|]. split.
      * cbn [seq map sync_passes].
        replace (log_after lg others 1) with (lg ++ default [] (head others))%list
          by (rewrite <- log_after_head; unfold log_after; simpl; rewrite app_nil_r; reflexivity).
        rewrite Hs. rewrite <- seq_shift, map_map.
        erewrite map_ext; [exact Hp|]. intros i. symmetry. apply log_after_head.
      * rewrite Hlg, log_after_head. reflexivity.
Qed.

Lemma Take_c_None (fuel : nat) (others : list Log) (fresh object : string)
    (quantity : Z) (w : World) :
  Take_c None fuel others fresh object quantity w
  = Take fuel others fresh object quantity w.
Proof.
  unfold Take_c, Take. destruct (ValidateInput object quantity); [reflexivity|].
  destruct (Client_TryAppend _ _ _ _ _ _ _ _) as [[[lg' t'] [v|e]]|]; reflexivity.
Qed.

(* ------------------------------------------------------------------ *)
(** ** Claims: conditional append *)

(** C3 (counterexample): a Take of 3 with an empty object on the empty
    projection has [Q - requested = -3 < 0] but fails input validation
    first, returning the invalid-object error, not [ErrInsuffQuant]. *)
Lemma C3_counterexample :
  default 0 (objects empty_store !! "") - 3 < 0 /\
  Take_c None 0 [] "1" "" 3 (mkWorld empty_store [])
    = Some (mkWorld empty_store [], Err ErrInvalidObject) /\
  ErrInvalidObject <> ErrInsuffQuant.
Proof. split; [reflexivity|]. split; [reflexivity|discriminate]. Qed.

(** C3 (amended): for a Take that passes input validation, on a projection
    satisfying the replay invariant, [Q - requested < 0] makes the event
    builder fail on its first call, and [Take] returns [ErrInsuffQuant]
    with the store and the log as they were: no event was built or
    appended, and the transaction is discarded without committing, so
    this holds whatever [Commit] would have returned. *)
Theorem C3_take_insufficient_aborts :
  forall (cerr : option error) (fuel : nat) (others : list Log)
         (fresh object : string) (quantity : Z) (w : World),
    ValidateInput object quantity = None -> quantity <= int64_max ->
    store_inv (db w) ->
    default 0 (objects (db w) !! object) - quantity < 0 ->
    Take_build object quantity (db w) = (db w, Err ErrInsuffQuant) /\
    Take_c cerr fuel others fresh object quantity w = Some (w, Err ErrInsuffQuant).
Proof.
  intros cerr fuel others fresh object quantity w HV Hmax Hinv Hlt.
  pose proof (ValidateInput_None _ _ HV) as [_ Hq].
  pose proof (Take_build_insuff object quantity (db w) Hinv ltac:(auto; lia) Hlt) as Hb.
  split; [exact Hb|].
  unfold Take_c. rewrite HV.
  destruct fuel; cbn [Client_TryAppend]; rewrite Hb; destruct w; reflexivity.
Qed.

Lemma C3_take_insufficient_aborts_witness :
  Take_build "apple" 3 (db (mkWorld empty_store [])) = (empty_store, Err ErrInsuffQuant) /\
  Take_c (Some ErrCommit) 2 [] "1" "apple" 3 (mkWorld empty_store [])
    = Some (mkWorld empty_store [], Err ErrInsuffQuant).
Proof.
  apply C3_take_insufficient_aborts.
  - reflexivity.
  - unfold int64_max. lia.
  - exact empty_store_inv.
  - reflexivity.
Defined.

(** C6: [Put] appends its event whatever the projection holds and leaves
    the store untouched. A successful [Take] leaves the store as the sync
    passes of its conflict handler made it, run inside its transaction
    over the log as it stood at each conflict (the old log and the first
    [1..j] batches of other writers), and appends its take event only
    after that, so the event is never applied on the write path; without
    a conflict at the first attempt the store is not changed at all.
    This holds whatever [Commit] returns. *)
Theorem C6_write_path_frame :
  (forall (fresh object : string) (quantity : Z) (w : World),
     ValidateInput object quantity = None ->
     Put fresh object quantity w
       = (mkWorld (db w) (wlog w ++
            [mkClientEvent fresh "put" (Some (mkPayload object quantity))])%list,
          Ok tt)) /\
  (forall (cerr : option error) (fuel : nat) (others : list Log)
          (fresh object : string) (quantity : Z) (w w' : World),
     Take_c cerr fuel others fresh object quantity w = Some (w', Ok tt) ->
     exists j, sync_passes (map (log_after (wlog w) others) (seq 1 j)) (db w)
                 = Some (db w') /\
       wlog w' = (log_after (wlog w) others (S j) ++
         [mkClientEvent fresh "take" (Some (mkPayload object quantity))])%list) /\
  (forall (cerr : option error) (fuel : nat) (others : list Log)
          (fresh object : string) (quantity : Z) (w w' : World),
     head_version (wlog w ++ default [] (head others))%list = pversion (db w) ->
     Take_c cerr fuel others fresh object quantity w = Some (w', Ok tt) ->
     db w' = db w).
Proof.
  split; [|split].
  - intros fresh object quantity w HV. unfold Put. rewrite HV. reflexivity.
  - intros cerr fuel others fresh object quantity w w' H. unfold Take_c in H.
    destruct (ValidateInput object quantity); [discriminate|].
    destruct (Client_TryAppend _ _ _ _ _ _ _ _) as [[[lg' t'] [v|e]]|] eqn:E;
      [|discriminate|discriminate].
    destruct cerr; [discriminate|]. injection H as <-. cbn [db wlog].
    destruct (TryAppend_ok_passes _ _ _ _ _ _ _ _ _ _ (Take_build_pure object quantity) E)
      as [j [ev [Hb [Hp Hlg]]]].
    exists j. split; [exact Hp|]. rewrite Hlg.
    unfold Take_build, bind, Tx_GetQuantity in Hb.
    destruct (wrap64 _ <? 0); [discriminate|].
    unfold Encode in Hb. cbn [Operation Object Quantity is_known_label String.eqb] in Hb.
    injection Hb as <-. reflexivity.
  - intros cerr fuel others fresh object quantity w w' Hh H. unfold Take_c in H.
    destruct (ValidateInput object quantity); [discriminate|].
    destruct fuel; cbn [Client_TryAppend] in H;
      pose proof (Take_build_pure object quantity (db w)) as Hp;
      destruct (Take_build object quantity (db w)) as [t1 [ev|e]];
      simpl in Hp; subst t1; try discriminate;
      rewrite Hh, String_eqb_refl' in H; destruct cerr; inversion H; reflexivity.
Qed.

Lemma C6_write_path_frame_witness :
  let x := mkClientEvent "1" "put" (Some (mkPayload "apple" 5)) in
  let y := mkClientEvent "2" "put" (Some (mkPayload "apple" 3)) in
  let z := mkClientEvent "3" "take" (Some (mkPayload "apple" 4)) in
  Put "4" "pear" 1 (mkWorld (mkStore {[ "apple" := 5 ]} "1") [x])
    = (mkWorld (mkStore {[ "apple" := 5 ]} "1")
         [x; mkClientEvent "4" "put" (Some (mkPayload "pear" 1))], Ok tt) /\
  (exists j, sync_passes (map (log_after [x] [[y]]) (seq 1 j))
                (mkStore {[ "apple" := 5 ]} "1")
             = Some (mkStore {[ "apple" := 8 ]} "2") /\
     [x; y; z] = (log_after [x] [[y]] (S j) ++ [z])%list) /\
  db (mkWorld (mkStore {[ "apple" := 5 ]} "1") [x; z])
    = db (mkWorld (mkStore {[ "apple" := 5 ]} "1") [x]).
Proof.
  destruct C6_write_path_frame as [H1 [H2 H3]]. cbn zeta.
  split; [apply H1; reflexivity|].
  split.
  - apply (H2 None 1%nat [[mkClientEvent "2" "put" (Some (mkPayload "apple" 3))]] "3"
             "apple" 4 (mkWorld (mkStore {[ "apple" := 5 ]} "1")
                          [mkClientEvent "1" "put" (Some (mkPayload "apple" 5))])
             (mkWorld (mkStore {[ "apple" := 8 ]} "2")
                [mkClientEvent "1" "put" (Some (mkPayload "apple" 5));
                 mkClientEvent "2" "put" (Some (mkPayload "apple" 3));
                 mkClientEvent "3" "take" (Some (mkPayload "apple" 4))])).
    vm_compute. reflexivity.
  - apply (H3 None 0%nat [] "3" "apple" 4
             (mkWorld (mkStore {[ "apple" := 5 ]} "1")
                [mkClientEvent "1" "put" (Some (mkPayload "apple" 5))])
             (mkWorld (mkStore {[ "apple" := 5 ]} "1")
                [mkClientEvent "1" "put" (Some (mkPayload "apple" 5));
                 mkClientEvent "3" "take" (Some (mkPayload "apple" 4))])).
    + reflexivity.
    + vm_compute. reflexivity.
Defined.
(** C7: on a conflict, [Take]'s handler [p.Sync(ctx, t)] runs in [Take]'s
    own transaction: with marker [Vp] (the version of [x]) it applies
    exactly the events after [x], advances the marker to the new head and
    returns that head as the version to retry against. End to end: when
    other writers append [post] before the conditional append, [Take]
    resyncs, retries against the new head, appends its event after
    [post], and commits the resynced store. *)
Theorem C7_conflict_resync_in_tx :
  (forall (pre post : Log) (x : client_Event) (t : Store),
     log_wf (pre ++ x :: post)%list -> Forall decodes post -> post <> [] ->
     pversion t = ev_Version x ->
     exists t', replay Consumer_apply post t = (t', Ok tt) /\
       Producer_Sync (pre ++ x :: post)%list true t
         = (t', Ok (head_version (pre ++ x :: post)%list)) /\
       pversion t' = head_version (pre ++ x :: post)%list) /\
  (forall (fuel : nat) (pre post : Log) (x : client_Event) (t : Store)
          (fresh object : string) (quantity : Z),
     log_wf (pre ++ x :: post)%list -> Forall decodes post -> post <> [] ->
     pversion t = ev_Version x -> store_inv t ->
     ValidateInput object quantity = None -> quantity <= int64_max ->
     quantity <= default 0 (objects t !! object) ->
     quantity <= default 0 (objects (fst (replay Consumer_apply post t))
                              !! object) ->
     Take (S fuel) [post] fresh object quantity (mkWorld t (pre ++ [x])%list)
     = Some (mkWorld (fst (replay Consumer_apply post t))
               (pre ++ x :: post ++
                  [mkClientEvent fresh "take"
                     (Some (mkPayload object quantity))])%list, Ok tt)).
Proof.
  split; [exact Producer_Sync_after_marker|].
  intros fuel pre post x t fresh object quantity Hwf Hdec Hne Hv Hinv HV Hmax
    Hq1 Hq2.
  destruct (Producer_Sync_after_marker pre post x t Hwf Hdec Hne Hv)
    as [t' [Hr [Hs Hv']]].
  rewrite Hr in Hq2 |- *. simpl fst in Hq2 |- *.
  pose proof (ValidateInput_None _ _ HV) as [_ Hq0].
  assert (Hinv' : store_inv t').
  { pose proof (replay_inv post t Hinv) as H. rewrite Hr in H. exact H. }
  unfold Take. rewrite HV. simpl db. simpl wlog.
  cbn [Client_TryAppend].
  rewrite (Take_build_ok object quantity t Hinv) by (auto; lia).
  simpl head. simpl default.
  replace ((pre ++ [x]) ++ post)%list with (pre ++ x :: post)%list
    by (rewrite <- app_assoc; reflexivity).
  assert (Hneq : ev_Version x <> head_version (pre ++ x :: post)%list).
  { rewrite <- Hv'. destruct Hwf as [Hnd _].
    destruct (replay_decodes post t Hdec) as [t0 [Hr0 Hv0]].
    rewrite Hr in Hr0. inversion Hr0; subst t0. rewrite Hv0.
    rewrite map_app in Hnd. simpl in Hnd.
    pose proof (List.NoDup_remove_2 _ _ _ Hnd) as Hx.
    destruct (last post) as [y|] eqn:E.
    - intros Heq. apply Hx. apply in_app_iff. right. rewrite Heq.
      apply in_map. apply last_Some in E. destruct E as [l' ->].
      apply in_app_iff. right. left. reflexivity.
    - apply last_None in E. contradiction. }
  rewrite Hv, (String_eqb_neq _ _ Hneq), Hs.
  cbn [Client_TryAppend tail].
  destruct fuel; cbn [Client_TryAppend];
    rewrite (Take_build_ok object quantity t' Hinv') by (auto; lia);
    simpl head; simpl default; rewrite app_nil_r, String_eqb_refl';
    unfold Client_Append; simpl;
    rewrite <- app_assoc; reflexivity.
Qed.

Lemma C7_conflict_resync_in_tx_witness :
  let x := mkClientEvent "1" "put" (Some (mkPayload "apple" 5)) in
  let y := mkClientEvent "2" "put" (Some (mkPayload "apple" 3)) in
  Take 1 [[y]] "3" "apple" 4 (mkWorld (mkStore {[ "apple" := 5 ]} "1") [x])
  = Some (mkWorld (mkStore {[ "apple" := 8 ]} "2")
            [x; y; mkClientEvent "3" "take" (Some (mkPayload "apple" 4))],
          Ok tt).
Proof.
  destruct C7_conflict_resync_in_tx as [_ H]. cbn zeta.
  rewrite (H 0%nat [] [mkClientEvent "2" "put" (Some (mkPayload "apple" 3))]
             (mkClientEvent "1" "put" (Some (mkPayload "apple" 5)))
             (mkStore {[ "apple" := 5 ]} "1") "3" "apple" 4).
  - vm_compute. reflexivity.
  - split.
    + simpl. repeat constructor; simpl; intuition discriminate.
    + repeat constructor; discriminate.
  - repeat constructor; eexists; reflexivity.
  - discriminate.
  - reflexivity.
  - intros k q Hk. simpl in Hk. apply lookup_singleton_Some in Hk. destruct Hk as [_ <-].
    unfold int64_max. lia.
  - reflexivity.
  - unfold int64_max. lia.
  - vm_compute. discriminate.
  - vm_compute. discriminate.
Defined.

(* ------------------------------------------------------------------ *)
(** ** Lemmas on decimal integers *)

Lemma digit_val_range (c : ascii) : is_digit c = true -> 0 <= digit_val c <= 9.
Proof.
  unfold is_digit, digit_val. intros H. apply andb_true_iff in H as [H1 H2].
  apply Nat.leb_le in H1, H2. lia.
Qed.

Lemma digit_char_ok (d : Z) :
  0 <= d <= 9 -> is_digit (digit_char d) = true /\ digit_val (digit_char d) = d.
Proof.
  intros Hd. unfold is_digit, digit_val, digit_char.
  rewrite nat_ascii_embedding by lia.
  split; [apply andb_true_iff; split; apply Nat.leb_le; lia | lia].
Qed.

Lemma str_app_cons (c : ascii) (a b : string) :
  (String c a ++ b) = String c (a ++ b).
Proof. reflexivity. Qed.

Lemma str_app_nil_l (b : string) : ("" ++ b) = b.
Proof. reflexivity. Qed.

Lemma str_app_assoc (a b c : string) : ((a ++ b) ++ c) = (a ++ (b ++ c)).
Proof.
  induction a as [|x a IH]; [reflexivity|].
  rewrite !str_app_cons, IH. reflexivity.
Qed.

Lemma dec_value_app (n : Z) (s1 s2 : string) :
  dec_value n (s1 ++ s2) = dec_value (dec_value n s1) s2.
Proof.
  revert n; induction s1 as [|c s1 IH]; intros n; [reflexivity|].
  rewrite str_app_cons. apply IH.
Qed.

Lemma all_digits_app (s1 s2 : string) :
  all_digits (s1 ++ s2) = all_digits s1 && all_digits s2.
Proof.
  induction s1 as [|c s1 IH]; [reflexivity|].
  rewrite str_app_cons. simpl. rewrite IH.
  destruct (is_digit c); reflexivity.
Qed.

Lemma dec_value_ge (n : Z) (s : string) :
  0 <= n -> all_digits s = true -> n <= dec_value n s.
Proof.
  revert n; induction s as [|c s IH]; intros n Hn Hs; simpl in *; [lia|].
  apply andb_true_iff in Hs as [Hc Hs]. pose proof (digit_val_range c Hc).
  specialize (IH (n * 10 + digit_val c) ltac:(lia) Hs). lia.
Qed.

Lemma ParseUint_loop_spec (maxVal : Z) (s : string) (n : Z) :
  0 <= maxVal <= maxUint64 -> 0 <= n <= maxVal -> all_digits s = true ->
  ParseUint_loop (maxUint64 / 10 + 1) maxVal n s
  = if dec_value n s <=? maxVal then (dec_value n s, None)
    else (maxVal, Some ErrRange).
Proof.
  intros Hm. revert n; induction s as [|c s IH]; intros n Hn Hs; simpl in *.
  - destruct (Z.leb_spec n maxVal); [reflexivity|lia].
  - apply andb_true_iff in Hs as [Hc Hs]. rewrite Hc. simpl negb. cbv iota.
    pose proof (digit_val_range c Hc) as Hd.
    assert (Hge : forall m, 0 <= m -> m <= dec_value m s)
      by (intros m Hm0; apply dec_value_ge; assumption).
    unfold maxUint64 in *.
    destruct (Z.leb_spec ((2 ^ 64 - 1) / 10 + 1) n) as [Hc1|Hc1].
    + specialize (Hge (n * 10 + digit_val c) ltac:(lia)).
      destruct (Z.leb_spec (dec_value (n * 10 + digit_val c) s) maxVal);
        [|reflexivity].
      assert ((2 ^ 64 - 1) / 10 = 1844674407370955161) as E by reflexivity. lia.
    + assert ((2 ^ 64 - 1) / 10 = 1844674407370955161) as E by reflexivity.
      unfold wrapu64. rewrite (Z.mod_small (n * 10)) by lia.
      destruct (Z_lt_le_dec (n * 10 + digit_val c) (2 ^ 64)) as [Hw|Hw].
      * rewrite Z.mod_small by lia.
        destruct (Z.ltb_spec (n * 10 + digit_val c) (n * 10)); [lia|].
        destruct (Z.ltb_spec maxVal (n * 10 + digit_val c)) as [Hgt|Hle]; simpl.
        -- specialize (Hge (n * 10 + digit_val c) ltac:(lia)).
           destruct (Z.leb_spec (dec_value (n * 10 + digit_val c) s) maxVal);
             [lia|reflexivity].
        -- apply IH; [lia|exact Hs].
      * assert (Hmod : (n * 10 + digit_val c) mod 2 ^ 64
                       = n * 10 + digit_val c - 2 ^ 64).
        { symmetry. apply Z.mod_unique with 1; lia. }
        rewrite Hmod.
        destruct (Z.ltb_spec (n * 10 + digit_val c - 2 ^ 64) (n * 10)); [|lia].
        simpl. specialize (Hge (n * 10 + digit_val c) ltac:(lia)).
        destruct (Z.leb_spec (dec_value (n * 10 + digit_val c) s) maxVal);
          [lia|reflexivity].
Qed.

Lemma fmt_digits_buf (f : nat) (u : Z) (buf : string) :
  fmt_digits f u buf = (fmt_digits f u "" ++ buf).
Proof.
  revert u buf; induction f as [|f IH]; intros u buf; simpl; [reflexivity|].
  destruct (u <? 10); [reflexivity|].
  rewrite (IH _ (String _ buf)), (IH _ (String _ "")).
  rewrite str_app_assoc. reflexivity.
Qed.

Lemma fmt_digits_spec (f : nat) (u : Z) :
  0 <= u < 10 ^ (Z.of_nat f + 1) ->
  all_digits (fmt_digits f u "") = true /\
  dec_value 0 (fmt_digits f u "") = u /\
  exists c rest, fmt_digits f u "" = String c rest /\ is_digit c = true.
Proof.
  revert u; induction f as [|f IH]; intros u Hu.
  - simpl in Hu. destruct (digit_char_ok u ltac:(lia)) as [H1 H2].
    simpl. rewrite H1, H2. split; [reflexivity|]. split; [lia|eauto].
  - cbn [fmt_digits].
    destruct (Z.ltb_spec u 10) as [Hlt|Hge].
    + destruct (digit_char_ok u ltac:(lia)) as [H1 H2].
      simpl. rewrite H1, H2. split; [reflexivity|]. split; [lia|eauto].
    + pose proof (Z.div_mod u 10 ltac:(lia)) as Hdm.
      pose proof (Z.mod_pos_bound u 10 ltac:(lia)) as Hmb.
      assert (Hnext : 0 <= u / 10 < 10 ^ (Z.of_nat f + 1)).
      { split; [apply Z.div_pos; lia|].
        apply Z.div_lt_upper_bound; [lia|].
        replace (Z.of_nat (S f) + 1) with (Z.succ (Z.of_nat f + 1)) in Hu by lia.
        rewrite Z.pow_succ_r in Hu by lia. lia. }
      destruct (IH (u / 10) Hnext) as [Ha [Hv [c [rest [Hcr Hc]]]]].
      destruct (digit_char_ok (u - u / 10 * 10) ltac:(lia)) as [H1 H2].
      rewrite fmt_digits_buf.
      split; [|split].
      * rewrite all_digits_app, Ha. simpl. rewrite H1. reflexivity.
      * rewrite dec_value_app, Hv. simpl. rewrite H2. lia.
      * rewrite Hcr. exists c, (rest ++ String (digit_char (u - u / 10 * 10)) "").
        split; [reflexivity|exact Hc].
Qed.

Lemma is_digit_not_sign (c : ascii) :
  is_digit c = true -> Ascii.eqb c "+"%char = false /\ Ascii.eqb c "-"%char = false.
Proof.
  intros H.
  destruct (Ascii.eqb_spec c "+"%char) as [->|_]; [discriminate H|].
  destruct (Ascii.eqb_spec c "-"%char) as [->|_]; [discriminate H|].
  split; reflexivity.
Qed.

Lemma ParseUint_digits (s : string) (b : Z) :
  all_digits s = true -> s <> "" -> 1 <= b <= 64 ->
  ParseUint s b = if dec_value 0 s <=? 2 ^ b - 1 then (dec_value 0 s, None)
                  else (2 ^ b - 1, Some ErrRange).
Proof.
  intros Hs Hne Hb. unfold ParseUint.
  destruct (String.eqb_spec s "") as [E|_]; [contradiction|].
  assert (0 < 2 ^ b <= 2 ^ 64) by (split; [apply Z.pow_pos_nonneg|apply Z.pow_le_mono_r]; lia).
  apply ParseUint_loop_spec; [unfold maxUint64; lia|lia|exact Hs].
Qed.

(** [Sprintf_d] followed by [ParseInt] with [bitSize] 32 or 64 gives the
    number back when it lies in that signed range and a range error
    otherwise. *)
Lemma ParseInt_Sprintf_d (n : Z) (b : Z) :
  int64_min <= n <= int64_max -> b = 32 \/ b = 64 ->
  ParseInt (Sprintf_d n) b
  = if (- 2 ^ (b - 1) <=? n) && (n <? 2 ^ (b - 1)) then (n, None)
    else (fst (ParseInt (Sprintf_d n) b), Some ErrRange).
Proof.
  intros Hn Hb. unfold int64_min, int64_max in Hn.
  assert (Hp : 2 ^ (b - 1) * 2 = 2 ^ b /\ 2 ^ 31 <= 2 ^ (b - 1) <= 2 ^ 63)
    by (destruct Hb; subst; (split; [reflexivity|lia])).
  assert (Hpb : 2 ^ b <= 2 ^ 64) by (destruct Hb; subst; lia).
  unfold Sprintf_d.
  destruct (Z.ltb_spec n 0) as [Hneg|Hpos].
  - assert (Hu : wrapu64 (- wrapu64 n) = - n).
    { unfold wrapu64.
      assert (n mod 2 ^ 64 = n + 2 ^ 64) as E1.
      { symmetry. apply Z.mod_unique with (-1); lia. }
      rewrite E1. symmetry. apply Z.mod_unique with (-1); lia. }
    rewrite Hu.
    destruct (fmt_digits_spec 20 (- n) ltac:(simpl; lia))
      as [Ha [Hv [c [rest [Hcr Hc]]]]].
    cbn [ParseInt]. cbv iota.
    change (Ascii.eqb "-"%char "+"%char) with false.
    change (Ascii.eqb "-"%char "-"%char) with true. cbv iota.
    rewrite (ParseUint_digits _ b Ha ltac:(rewrite Hcr; discriminate)
               ltac:(destruct Hb; lia)), Hv.
    destruct (Z.leb_spec (- n) (2 ^ b - 1)) as [Hle|Hgt].
    + cbv iota. simpl negb.
      destruct (Z.ltb_spec (2 ^ (b - 1)) (- n)) as [Hr|Hr]; simpl andb.
      * destruct (Z.leb_spec (- 2 ^ (b - 1)) n); [lia|reflexivity].
      * destruct (Z.leb_spec (- 2 ^ (b - 1)) n); [|lia].
        destruct (Z.ltb_spec n (2 ^ (b - 1))); [|lia]. simpl.
        f_equal.
        destruct (Z.eq_dec (- n) (2 ^ 63)) as [E|E].
        -- rewrite E. vm_compute. lia.
        -- rewrite (wrap64_id (- n)) by (unfold int64_min, int64_max; lia).
           rewrite Z.opp_involutive. apply wrap64_id.
           unfold int64_min, int64_max; lia.
    + cbv iota. simpl negb.
      destruct (Z.ltb_spec (2 ^ (b - 1)) (2 ^ b - 1)) as [Hr|Hr]; [|lia].
      simpl andb.
      destruct (Z.leb_spec (- 2 ^ (b - 1)) n); [lia|reflexivity].
  - assert (Hu : wrapu64 n = n) by (unfold wrapu64; rewrite Z.mod_small; lia).
    rewrite Hu.
    destruct (fmt_digits_spec 20 n ltac:(simpl; lia))
      as [Ha [Hv [c [rest [Hcr Hc]]]]].
    rewrite Hcr. cbn [ParseInt].
    destruct (is_digit_not_sign c Hc) as [Hplus Hminus].
    rewrite Hplus, Hminus. cbv iota. rewrite <- Hcr.
    rewrite (ParseUint_digits _ b Ha ltac:(rewrite Hcr; discriminate)
               ltac:(destruct Hb; lia)), Hv.
    destruct (Z.leb_spec n (2 ^ b - 1)) as [Hle|Hgt].
    + cbv iota. simpl negb.
      destruct (Z.leb_spec (2 ^ (b - 1)) n) as [Hr|Hr]; simpl andb.
      * destruct (Z.leb_spec (- 2 ^ (b - 1)) n); [|lia].
        destruct (Z.ltb_spec n (2 ^ (b - 1))); [lia|reflexivity].
      * destruct (Z.leb_spec (- 2 ^ (b - 1)) n); [|lia].
        destruct (Z.ltb_spec n (2 ^ (b - 1))); [|lia]. simpl.
        f_equal. apply wrap64_id. unfold int64_min, int64_max; lia.
    + cbv iota. simpl negb.
      destruct (Z.leb_spec (2 ^ (b - 1)) (2 ^ b - 1)) as [Hr|Hr]; [|lia].
      simpl andb.
      destruct (Z.leb_spec (- 2 ^ (b - 1)) n); [|lia].
      destruct (Z.ltb_spec n (2 ^ (b - 1))); [lia|reflexivity].
Qed.

(* ------------------------------------------------------------------ *)
(** ** Lemmas on the key-value layout *)

Lemma object_key_ne_version (o : string) : ("o_" ++ o) <> "version".
Proof. rewrite !str_app_cons. discriminate. Qed.

Lemma object_key_inj (o1 o2 : string) : ("o_" ++ o1) = ("o_" ++ o2) -> o1 = o2.
Proof. intros H. rewrite !str_app_cons in H. injection H as H. exact H. Qed.

Lemma ParseInt_Sprintf_d_64 (n : Z) :
  int64_min <= n <= int64_max -> ParseInt (Sprintf_d n) 64 = (n, None).
Proof.
  intros Hn. rewrite (ParseInt_Sprintf_d n 64 Hn (or_intror eq_refl)).
  unfold int64_min, int64_max in Hn.
  destruct (Z.leb_spec (- 2 ^ (64 - 1)) n); [|lia].
  destruct (Z.ltb_spec n (2 ^ (64 - 1))); [reflexivity|lia].
Qed.

Lemma Sprintf_d_inj (n m : Z) :
  int64_min <= n <= int64_max -> int64_min <= m <= int64_max ->
  Sprintf_d n = Sprintf_d m -> n = m.
Proof.
  intros Hn Hm H.
  pose proof (ParseInt_Sprintf_d_64 n Hn) as E1.
  rewrite H, (ParseInt_Sprintf_d_64 m Hm) in E1. congruence.
Qed.

Lemma str_drop_prefix (o : string) :
  str_drop (String.length "o_") ("o_" ++ o) = o.
Proof. reflexivity. Qed.

Lemma prefix_o_key (k : string) :
  String.prefix "o_" k = true -> k = ("o_" ++ str_drop (String.length "o_") k).
Proof.
  destruct k as [|c1 k]; [discriminate|]. cbn [String.prefix].
  destruct (ascii_dec "o"%char c1) as [<-|]; [|discriminate].
  destruct k as [|c2 k]; [discriminate|]. cbn [String.prefix].
  destruct (ascii_dec "_"%char c2) as [<-|]; [|discriminate].
  reflexivity.
Qed.

Lemma prefix_o_app (o : string) : String.prefix "o_" ("o_" ++ o) = true.
Proof.
  rewrite !str_app_cons, str_app_nil_l. cbn [String.prefix].
  destruct (ascii_dec "o"%char "o"%char) as [_|]; [|congruence].
  destruct (ascii_dec "_"%char "_"%char) as [_|]; [|congruence].
  destruct o; reflexivity.
Qed.

Lemma represents_lookup (kv : KV) (s : Store) (o : string) :
  represents kv s ->
  raw_GetQuantity o kv = (default 0 (objects s !! o), None).
Proof.
  intros [Ho [_ Hr]]. unfold raw_GetQuantity. rewrite Ho.
  destruct (objects s !! o) as [q|] eqn:E; simpl; [|reflexivity].
  apply ParseInt_Sprintf_d_64. exact (Hr o q E).
Qed.

Lemma scan_item_shape (kv : KV) (s : Store) (k v : string) :
  represents kv s -> In (k, v) (prefix_entries "o_" kv) ->
  exists o q, k = ("o_" ++ o) /\ v = Sprintf_d q /\ objects s !! o = Some q /\
              int64_min <= q <= int64_max.
Proof.
  intros [Ho [_ Hr]] Hin. unfold prefix_entries in Hin.
  apply filter_In in Hin as [Hin Hp].
  apply list_elem_of_In, elem_of_map_to_list in Hin.
  rewrite (prefix_o_key k Hp) in Hin |- *.
  set (o := str_drop (String.length "o_") k) in *.
  rewrite Ho in Hin. destruct (objects s !! o) as [q|] eqn:E; [|discriminate].
  simpl in Hin. injection Hin as <-.
  exists o, q. split; [reflexivity|]. split; [reflexivity|].
  split; [exact E|exact (Hr o q E)].
Qed.

(** The entry [(k, v)] as [ScanObjects] hands it to its callback. *)
Lemma raw_scanPrefix_loop_map (fn : string -> Z -> option error)
    (items : list (string * string)) :
  Forall (fun '(k, v) => snd (ParseInt v 64) = None) items ->
  raw_scanPrefix_loop (fun key value =>
    let '(q, err) := ParseInt value 64 in
    match err with
    | Some e => Some (DBErrParse e)
    | None => option_map DBErr (fn (str_drop (String.length "o_") key) q)
    end) items
  = option_map DBErr (scanPrefix_loop fn
      (map (fun '(k, v) => (str_drop (String.length "o_") k,
                            fst (ParseInt v 64))) items)).
Proof.
  induction items as [|[k v] items IH]; intros Hf; [reflexivity|].
  inversion Hf as [|? ? Hkv Hrest]; subst. simpl in Hkv.
  cbn [raw_scanPrefix_loop map scanPrefix_loop].
  destruct (ParseInt v 64) as [q [e|]]; [discriminate|]. simpl fst.
  destruct (fn (str_drop (String.length "o_") k) q); [reflexivity|].
  apply IH. exact Hrest.
Qed.

(* ------------------------------------------------------------------ *)
(** ** The database layer: stored text and key layout *)

(** X1: a quantity stored by [Tx.Set] is read back unchanged by
    [Tx.GetQuantity] for every [int64] value: [strconv.ParseInt(v, 10, 64)]
    inverts [fmt.Sprintf("%d")] on the whole [int64] range. A missing or
    deleted object reads as 0 without error, a missing version as [""],
    and a version written by [SetProjectionVersion] is read back. *)
Theorem db_set_get_roundtrip :
  (forall n : Z, int64_min <= n <= int64_max ->
     ParseInt (Sprintf_d n) 64 = (n, None)) /\
  (forall (o : string) (n : Z) (kv : KV), int64_min <= n <= int64_max ->
     raw_GetQuantity o (raw_Set o n kv) = (n, None)) /\
  (forall (o : string) (kv : KV), raw_GetQuantity o (raw_Delete o kv) = (0, None)) /\
  (forall (o : string) (kv : KV), kv !! ("o_" ++ o) = None ->
     raw_GetQuantity o kv = (0, None)) /\
  (forall kv : KV, kv !! "version" = None -> raw_GetProjectionVersion kv = "") /\
  (forall (v : string) (kv : KV),
     raw_GetProjectionVersion (raw_SetProjectionVersion v kv) = v).
Proof.
  split; [exact ParseInt_Sprintf_d_64|]. split; [|split; [|split; [|split]]].
  - intros o n kv Hn. unfold raw_GetQuantity, raw_Set.
    rewrite lookup_insert_eq. apply ParseInt_Sprintf_d_64. exact Hn.
  - intros o kv. unfold raw_GetQuantity, raw_Delete.
    rewrite lookup_delete_eq. reflexivity.
  - intros o kv H. unfold raw_GetQuantity. rewrite H. reflexivity.
  - intros kv H. unfold raw_GetProjectionVersion. rewrite H. reflexivity.
  - intros v kv. unfold raw_GetProjectionVersion, raw_SetProjectionVersion.
    rewrite lookup_insert_eq. reflexivity.
Qed.

Lemma db_set_get_roundtrip_witness :
  ParseInt (Sprintf_d int64_min) 64 = (int64_min, None) /\
  raw_GetQuantity "apple" (raw_Set "apple" (-7) ∅) = (-7, None) /\
  raw_GetQuantity "apple" ∅ = (0, None) /\
  raw_GetProjectionVersion ∅ = "".
Proof.
  destruct db_set_get_roundtrip as [H1 [H2 [_ [H4 [H5 _]]]]].
  split; [apply H1; unfold int64_min, int64_max; lia|].
  split; [apply H2; unfold int64_min, int64_max; lia|].
  split; [apply H4; reflexivity|]. apply H5. reflexivity.
Defined.

(** X2: the object keys ["o_" + object] and the ["version"] key never
    collide, and distinct objects have distinct keys: writing or deleting
    an object leaves the projection version and every other object's
    quantity as they were, and setting the version leaves every quantity
    as it was. *)
Theorem db_key_spaces_disjoint :
  (forall (o : string) (n : Z) (kv : KV),
     raw_GetProjectionVersion (raw_Set o n kv) = raw_GetProjectionVersion kv) /\
  (forall (o : string) (kv : KV),
     raw_GetProjectionVersion (raw_Delete o kv) = raw_GetProjectionVersion kv) /\
  (forall (v o : string) (kv : KV),
     raw_GetQuantity o (raw_SetProjectionVersion v kv) = raw_GetQuantity o kv) /\
  (forall (o o' : string) (n : Z) (kv : KV), o <> o' ->
     raw_GetQuantity o' (raw_Set o n kv) = raw_GetQuantity o' kv /\
     raw_GetQuantity o' (raw_Delete o kv) = raw_GetQuantity o' kv).
Proof.
  split; [|split; [|split]].
  - intros o n kv. unfold raw_GetProjectionVersion, raw_Set.
    rewrite lookup_insert_ne; [reflexivity|apply object_key_ne_version].
  - intros o kv. unfold raw_GetProjectionVersion, raw_Delete.
    rewrite lookup_delete_ne; [reflexivity|apply object_key_ne_version].
  - intros v o kv. unfold raw_GetQuantity, raw_SetProjectionVersion.
    rewrite lookup_insert_ne; [reflexivity|].
    intros H. apply (object_key_ne_version o). symmetry. exact H.
  - intros o o' n kv Hne.
    assert (Hk : ("o_" ++ o) <> ("o_" ++ o'))
      by (intros H; apply Hne, object_key_inj, H).
    unfold raw_GetQuantity, raw_Set, raw_Delete.
    rewrite lookup_insert_ne, lookup_delete_ne by exact Hk. split; reflexivity.
Qed.

Lemma db_key_spaces_disjoint_witness :
  raw_GetQuantity "pear" (raw_Set "apple" 3 (raw_Set "pear" 2 ∅))
    = raw_GetQuantity "pear" (raw_Set "pear" 2 ∅).
Proof.
  destruct db_key_spaces_disjoint as [_ [_ [_ H]]].
  apply (H "apple" "pear" 3 (raw_Set "pear" 2 ∅)). discriminate.
Defined.

(** X3: the abstract [Store] on which [apply], [Sync] and [Take] are
    modelled describes the key-value map faithfully: the empty database
    is the empty projection; on a represented map [Tx.GetQuantity] and
    [Tx.GetProjectionVersion] return the abstract values (missing object
    as 0, missing version as [""]); and [Tx.Set] (of an [int64]),
    [Tx.Delete] and [Tx.SetProjectionVersion] keep the correspondence. *)
Theorem db_store_abstraction :
  represents ∅ empty_store /\
  (forall (kv : KV) (s : Store), represents kv s ->
     (forall o : string, raw_GetQuantity o kv = (default 0 (objects s !! o), None)) /\
     raw_GetProjectionVersion kv = pversion s /\
     (forall (o : string) (n : Z), int64_min <= n <= int64_max ->
        represents (raw_Set o n kv) (fst (Tx_Set o n s))) /\
     (forall o : string, represents (raw_Delete o kv) (fst (Tx_Delete o s))) /\
     (forall v : string,
        represents (raw_SetProjectionVersion v kv)
          (fst (Tx_SetProjectionVersion v s)))).
Proof.
  split.
  { split; [intros o; reflexivity|]. split; [right; split; reflexivity|].
    apply map_Forall_empty. }
  intros kv s Hrep. pose proof Hrep as [Ho [Hv Hr]].
  split; [intros o; apply represents_lookup; exact Hrep|].
  split.
  { unfold raw_GetProjectionVersion.
    destruct Hv as [E|[E1 E2]]; rewrite ?E, ?E1; [reflexivity|symmetry; exact E2]. }
  split; [|split].
  - intros o n Hn. unfold raw_Set, Tx_Set; simpl. split; [|split]; cbn [objects pversion].
    + intros o'. destruct (decide (o = o')) as [<-|Hne].
      * rewrite !lookup_insert_eq. reflexivity.
      * rewrite !lookup_insert_ne by (try exact Hne; intros H; apply Hne, object_key_inj, H).
        apply Ho.
    + rewrite lookup_insert_ne by apply object_key_ne_version. exact Hv.
    + apply map_Forall_insert_2; [exact Hn|exact Hr].
  - intros o. unfold raw_Delete, Tx_Delete; simpl. split; [|split]; cbn [objects pversion].
    + intros o'. destruct (decide (o = o')) as [<-|Hne].
      * rewrite !lookup_delete_eq. reflexivity.
      * rewrite !lookup_delete_ne by (try exact Hne; intros H; apply Hne, object_key_inj, H).
        apply Ho.
    + rewrite lookup_delete_ne by apply object_key_ne_version. exact Hv.
    + apply map_Forall_delete. exact Hr.
  - intros v. unfold raw_SetProjectionVersion, Tx_SetProjectionVersion; simpl.
    split; [|split]; cbn [objects pversion].
    + intros o. rewrite lookup_insert_ne; [apply Ho|].
      intros H. apply (object_key_ne_version o). symmetry. exact H.
    + left. rewrite lookup_insert_eq. reflexivity.
    + exact Hr.
Qed.

Lemma db_store_abstraction_witness :
  raw_GetQuantity "apple" (raw_Set "apple" 5 ∅)
    = (default 0 (objects (fst (Tx_Set "apple" 5 empty_store)) !! "apple"), None).
Proof.
  destruct db_store_abstraction as [H0 H].
  destruct (H ∅ empty_store H0) as [_ [_ [Hset _]]].
  assert (Hr : represents (raw_Set "apple" 5 ∅) (fst (Tx_Set "apple" 5 empty_store)))
    by (apply Hset; unfold int64_min, int64_max; lia).
  destruct (H _ _ Hr) as [Hq _]. apply Hq.
Defined.

(** X4: on a represented map, [Tx.ScanObjects] (over the entries the
    iterator yields for the prefix ["o_"], in any order) calls its
    callback with exactly the projection's objects, prefix stripped, and
    their quantities: it behaves as the abstract scan over some
    enumeration of the projection, never meeting the version entry or a
    parse error. *)
Theorem db_scan_objects_abstraction (kv : KV) (s : Store)
    (items : list (string * string)) (fn : string -> Z -> option error) :
  represents kv s -> Permutation items (prefix_entries "o_" kv) ->
  exists items', Permutation items' (map_to_list (objects s)) /\
    raw_ScanObjects items fn = option_map DBErr (Tx_scanPrefix items' fn).
Proof.
  intros Hrep Hperm.
  assert (Hshape : forall k v, In (k, v) items ->
            exists o q, k = ("o_" ++ o) /\ v = Sprintf_d q /\
              objects s !! o = Some q /\ int64_min <= q <= int64_max).
  { intros k v Hin. apply (scan_item_shape kv s k v Hrep).
    eapply Permutation_in; [exact Hperm|exact Hin]. }
  set (f := (fun '(k, v) => (str_drop (String.length "o_") k, fst (ParseInt v 64)))
    : string * string -> string * Z).
  exists (map f items). split.
  - apply NoDup_Permutation.
    + apply NoDup_ListNoDup. apply Finite.Injective_map_NoDup_in.
      * intros [k1 v1] [k2 v2] H1 H2 Heq.
        destruct (Hshape _ _ H1) as [o1 [q1 [-> [-> [E1 R1]]]]].
        destruct (Hshape _ _ H2) as [o2 [q2 [-> [-> [E2 R2]]]]].
        unfold f in Heq. rewrite !str_drop_prefix in Heq.
        rewrite !ParseInt_Sprintf_d_64 in Heq by assumption.
        simpl in Heq. injection Heq as -> ->. reflexivity.
      * eapply Permutation_NoDup; [symmetry; exact Hperm|].
        unfold prefix_entries. apply List.NoDup_filter.
        apply NoDup_ListNoDup. apply NoDup_map_to_list.
    + apply NoDup_map_to_list.
    + intros [o q]. rewrite elem_of_map_to_list, list_elem_of_In, in_map_iff.
      split.
      * intros [[k v] [Hf Hin]].
        destruct (Hshape _ _ Hin) as [o' [q' [-> [-> [E R]]]]].
        unfold f in Hf. rewrite str_drop_prefix, ParseInt_Sprintf_d_64 in Hf by exact R.
        simpl in Hf. injection Hf as <- <-. exact E.
      * intros E. pose proof Hrep as [Ho [_ Hr]].
        exists ("o_" ++ o, Sprintf_d q). split.
        -- unfold f. rewrite str_drop_prefix, ParseInt_Sprintf_d_64 by exact (Hr o q E).
           reflexivity.
        -- eapply Permutation_in; [symmetry; exact Hperm|].
           unfold prefix_entries. apply filter_In. split; [|apply prefix_o_app].
           apply list_elem_of_In, elem_of_map_to_list. rewrite Ho, E. reflexivity.
  - unfold raw_ScanObjects, raw_scanPrefix, Tx_scanPrefix.
    rewrite raw_scanPrefix_loop_map.
    + destruct (scanPrefix_loop fn _); reflexivity.
    + apply List.Forall_forall. intros [k v] Hin.
      destruct (Hshape _ _ Hin) as [o [q [-> [-> [_ R]]]]].
      rewrite ParseInt_Sprintf_d_64 by exact R. reflexivity.
Qed.

Lemma db_scan_objects_abstraction_witness :
  exists items', Permutation items' (map_to_list (objects (mkStore {[ "apple" := 5 ]} "1"))) /\
    raw_ScanObjects [("o_apple", "5")] (fun _ _ => None)
    = option_map DBErr (Tx_scanPrefix items' (fun _ _ => None)).
Proof.
  apply (db_scan_objects_abstraction
           (<["version" := "1"]> {[ "o_apple" := "5" ]})
           (mkStore {[ "apple" := 5 ]} "1") [("o_apple", "5")] (fun _ _ => None)).
  - split; [|split].
    + intros o. simpl. destruct (decide (o = "apple")) as [->|Hne].
      * reflexivity.
      * rewrite lookup_insert_ne
          by (intros H; apply (object_key_ne_version o); symmetry; exact H).
        rewrite !lookup_singleton_ne; [reflexivity|congruence|].
        intros H. apply Hne. symmetry. exact (object_key_inj "apple" o H).
    + left. reflexivity.
    + intros k q Hk. simpl in Hk. apply lookup_singleton_Some in Hk as [_ <-].
      unfold int64_min, int64_max. lia.
  - vm_compute. reflexivity.
Defined.

(* ------------------------------------------------------------------ *)
(** ** Lemmas on character classes, strings and the matcher *)

Ltac ascii_cases c := destruct c as [[] [] [] [] [] [] [] []].

Lemma word_not_space (c : ascii) : is_word c = true -> is_space c = false.
Proof. intros H; ascii_cases c; vm_compute in H |- *; (reflexivity || discriminate). Qed.

Lemma space_not_word (c : ascii) : is_space c = true -> is_word c = false.
Proof. intros H; ascii_cases c; vm_compute in H |- *; (reflexivity || discriminate). Qed.

Lemma word_dot (c : ascii) : is_word c = true -> is_dot c = true.
Proof. intros H; ascii_cases c; vm_compute in H |- *; (reflexivity || discriminate). Qed.

Lemma digit_dot (c : ascii) : is_digit c = true -> is_dot c = true.
Proof. intros H; ascii_cases c; vm_compute in H |- *; (reflexivity || discriminate). Qed.

Lemma digit_not_space (c : ascii) : is_digit c = true -> is_space c = false.
Proof. intros H; ascii_cases c; vm_compute in H |- *; (reflexivity || discriminate). Qed.

Lemma dot_not_newline (c : ascii) : is_dot c = true -> Ascii.eqb c newline = false.
Proof. intros H; ascii_cases c; vm_compute in H |- *; (reflexivity || discriminate). Qed.

Lemma str_all_app (p : ascii -> bool) (a b : string) :
  str_all p (a ++ b) = str_all p a && str_all p b.
Proof.
  induction a as [|c a IH]; [reflexivity|].
  rewrite str_app_cons. simpl. rewrite IH. destruct (p c); reflexivity.
Qed.

Lemma str_all_impl (p q : ascii -> bool) (s : string) :
  (forall c, p c = true -> q c = true) -> str_all p s = true -> str_all q s = true.
Proof.
  intros Hpq. induction s as [|c s IH]; [reflexivity|].
  simpl. intros H. apply andb_true_iff in H as [H1 H2].
  rewrite (Hpq c H1), (IH H2). reflexivity.
Qed.

Lemma str_all_drop (p : ascii -> bool) (k : nat) (s : string) :
  str_all p s = true -> str_all p (str_drop k s) = true.
Proof.
  revert s; induction k as [|k IH]; intros s H; [exact H|].
  destruct s as [|c s]; [reflexivity|]. simpl in *.
  apply andb_true_iff in H as [_ H]. apply IH, H.
Qed.

Lemma str_length_app (a b : string) :
  String.length (a ++ b) = (String.length a + String.length b)%nat.
Proof.
  induction a as [|c a IH]; [reflexivity|]. rewrite str_app_cons. simpl. rewrite IH. reflexivity.
Qed.

Lemma str_take_app (a b : string) : str_take (String.length a) (a ++ b) = a.
Proof.
  induction a as [|c a IH]; [reflexivity|]. rewrite str_app_cons. simpl. rewrite IH. reflexivity.
Qed.

Lemma str_drop_app (a b : string) : str_drop (String.length a) (a ++ b) = b.
Proof. induction a as [|c a IH]; [reflexivity|]. rewrite str_app_cons. exact IH. Qed.

Lemma str_drop_app_ge (a b : string) (k : nat) :
  (String.length a <= k)%nat -> str_drop k (a ++ b) = str_drop (k - String.length a) b.
Proof.
  revert k; induction a as [|c a IH]; intros k Hk.
  - simpl. rewrite Nat.sub_0_r. reflexivity.
  - destruct k as [|k]; [simpl in Hk; lia|]. rewrite str_app_cons. simpl.
    apply IH. simpl in Hk. lia.
Qed.

Lemma str_length_pos (s : string) : s <> "" -> (1 <= String.length s)%nat.
Proof. destruct s; [contradiction|]. simpl. lia. Qed.

Lemma length_spaces (m : nat) : String.length (spaces m) = m.
Proof. induction m as [|m IH]; [reflexivity|]. simpl. rewrite IH. reflexivity. Qed.

Lemma spaces_S_r (m : nat) : spaces (S m) = (spaces m ++ " ").
Proof.
  induction m as [|m IH]; [reflexivity|].
  cbn [spaces] in IH |- *. rewrite str_app_cons, <- IH. reflexivity.
Qed.

Lemma str_all_spaces (p : ascii -> bool) (m : nat) :
  p " "%char = true -> str_all p (spaces m) = true.
Proof. intros H. induction m as [|m IH]; [reflexivity|]. simpl. rewrite H, IH. reflexivity. Qed.

Lemma str_app_nil_r (a : string) : (a ++ "") = a.
Proof. induction a as [|c a IH]; [reflexivity|]. rewrite str_app_cons, IH. reflexivity. Qed.

Lemma run_len_app_all (p : ascii -> bool) (a b : string) :
  str_all p a = true -> run_len p (a ++ b) = (String.length a + run_len p b)%nat.
Proof.
  induction a as [|c a IH]; intros H; [reflexivity|].
  simpl in H. apply andb_true_iff in H as [H1 H2].
  rewrite str_app_cons. simpl. rewrite H1, (IH H2). reflexivity.
Qed.

Lemma run_len_all (p : ascii -> bool) (s : string) :
  str_all p s = true -> run_len p s = String.length s.
Proof.
  intros H. rewrite <- (str_app_nil_r s) at 1. rewrite run_len_app_all by exact H.
  simpl. lia.
Qed.

Lemma run_len_app_zero (p : ascii -> bool) (a b : string) :
  a <> "" -> run_len p a = 0%nat -> run_len p (a ++ b) = 0%nat.
Proof.
  destruct a as [|c a]; [contradiction|]. intros _. rewrite str_app_cons. simpl.
  destruct (p c); [discriminate|reflexivity].
Qed.

Lemma run_len_space_word (s : string) :
  str_all is_word s = true -> run_len is_space s = 0%nat.
Proof.
  destruct s as [|c s]; [reflexivity|]. simpl. intros H.
  apply andb_true_iff in H as [H _]. rewrite (word_not_space c H). reflexivity.
Qed.

Lemma run_len_word_space (s : string) :
  s <> "" -> str_all is_space s = true -> run_len is_word s = 0%nat.
Proof.
  destruct s as [|c s]; [contradiction|]. simpl. intros _ H.
  apply andb_true_iff in H as [H _]. rewrite (space_not_word c H). reflexivity.
Qed.

Lemma str_take_run (p : ascii -> bool) (s : string) (k : nat) :
  (1 <= k <= run_len p s)%nat -> str_take k s <> "" /\ str_all p (str_take k s) = true.
Proof.
  revert k; induction s as [|c s IH]; intros k Hk; simpl in Hk; [lia|].
  destruct (p c) eqn:Hc; [|lia].
  destruct k as [|k]; [lia|]. simpl. split; [discriminate|].
  rewrite Hc. simpl. destruct k as [|k]; [reflexivity|].
  apply (IH (S k)). lia.
Qed.

Lemma try_lens_Some (m : nat) (f : nat -> option (list string)) (r : list string) :
  try_lens m f = Some r -> exists k, (1 <= k <= m)%nat /\ f k = Some r.
Proof.
  induction m as [|m IH]; simpl; [discriminate|].
  destruct (f (S m)) eqn:E.
  - intros H. injection H as <-. exists (S m). split; [lia|exact E].
  - intros H. destruct (IH H) as [k [Hk Hf]]. exists k. split; [lia|exact Hf].
Qed.

Lemma try_lens_hit (m j : nat) (f : nat -> option (list string)) (r : list string) :
  (1 <= j <= m)%nat -> f j = Some r ->
  (forall k, (j < k <= m)%nat -> f k = None) ->
  try_lens m f = Some r.
Proof.
  induction m as [|m IH]; intros Hj Hf Hnone; [lia|]. simpl.
  destruct (Nat.eq_dec j (S m)) as [->|Hne].
  - rewrite Hf. reflexivity.
  - rewrite (Hnone (S m)) by lia. apply IH; [lia|exact Hf|].
    intros k Hk. apply Hnone. lia.
Qed.

Lemma re_match_RCapPlus (p : ascii -> bool) (ns : list re_node) (b : bool) (s : string) :
  re_match (RCapPlus p :: ns) b s
  = try_lens (run_len p s) (fun k =>
      option_map (cons (str_take k s)) (re_match ns false (str_drop k s))).
Proof. reflexivity. Qed.

Lemma re_match_RPlus (p : ascii -> bool) (ns : list re_node) (b : bool) (s : string) :
  re_match (RPlus p :: ns) b s
  = try_lens (run_len p s) (fun k => re_match ns false (str_drop k s)).
Proof. reflexivity. Qed.

(** Every group of a match is a non-empty run of its class. *)
Lemma re_match_groups (ns : list re_node) (b : bool) (s : string) (gs : list string) :
  re_match ns b s = Some gs ->
  Forall2 (fun p g => g <> "" /\ str_all p g = true) (caps ns) gs.
Proof.
  revert b s gs; induction ns as [|n ns IH]; intros b s gs H.
  - injection H as <-. constructor.
  - destruct n as [| |p|p]; simpl in H |- *.
    + destruct b; [exact (IH _ _ _ H)|discriminate].
    + destruct s; [exact (IH _ _ _ H)|discriminate].
    + apply try_lens_Some in H as [k [_ H]]. exact (IH _ _ _ H).
    + apply try_lens_Some in H as [k [Hk H]].
      destruct (re_match ns false (str_drop k s)) as [gs'|] eqn:E; [|discriminate].
      injection H as <-. constructor; [|exact (IH _ _ _ E)].
      apply str_take_run. exact Hk.
Qed.

Lemma str_take_all (s : string) : str_take (String.length s) s = s.
Proof. pose proof (str_take_app s "") as T. rewrite str_app_nil_r in T. exact T. Qed.

Lemma str_drop_all (s : string) : str_drop (String.length s) s = "".
Proof. pose proof (str_drop_app s "") as T. rewrite str_app_nil_r in T. exact T. Qed.

Lemma all_digits_str_all (s : string) : all_digits s = str_all is_digit s.
Proof. induction s as [|c s IH]; [reflexivity|]. simpl. rewrite IH. reflexivity. Qed.

Lemma re_match_RBol (ns : list re_node) (s : string) :
  re_match (RBol :: ns) true s = re_match ns true s.
Proof. reflexivity. Qed.

Lemma re_match_tail_word (obj : string) :
  obj <> "" -> str_all is_word obj = true ->
  re_match [RCapPlus is_word; REol] false obj = Some [obj].
Proof.
  intros Hne Hw. rewrite re_match_RCapPlus, (run_len_all _ _ Hw).
  pose proof (str_length_pos obj Hne).
  apply try_lens_hit with (String.length obj); [lia| |intros k Hk; lia].
  cbv beta. rewrite str_take_all, str_drop_all. reflexivity.
Qed.

Lemma re_match_tail_sp_word (obj : string) :
  obj <> "" -> str_all is_word obj = true ->
  re_match [RPlus is_space; RCapPlus is_word; REol] false (String " "%char obj)
  = Some [obj].
Proof.
  intros Hne Hw. rewrite re_match_RPlus.
  replace (run_len is_space (String " "%char obj)) with 1%nat
    by (cbn [run_len]; rewrite (run_len_space_word obj Hw); reflexivity).
  cbn [try_lens str_drop]. rewrite (re_match_tail_word obj Hne Hw). reflexivity.
Qed.

Lemma re_match_tail_none (ns : list re_node) (t : string) :
  run_len is_space t = 0%nat -> re_match (RPlus is_space :: ns) false t = None.
Proof. intros H. rewrite re_match_RPlus, H. reflexivity. Qed.

(** The greedy [(.+)] gives back exactly one blank of the run before the
    last word. *)
Lemma re_match_dot_part (D obj : string) (m : nat) :
  D <> "" -> str_all is_dot D = true -> obj <> "" -> str_all is_word obj = true ->
  re_match [RCapPlus is_dot; RPlus is_space; RCapPlus is_word; REol] false
    (D ++ spaces (S m) ++ obj)
  = Some [(D ++ spaces m); obj].
Proof.
  intros HD0 HD Hne Hw. rewrite re_match_RCapPlus.
  assert (Hall : str_all is_dot (D ++ spaces (S m) ++ obj) = true).
  { rewrite !str_all_app, HD, str_all_spaces by reflexivity.
    rewrite (str_all_impl _ _ _ word_dot Hw). reflexivity. }
  rewrite (run_len_all _ _ Hall), !str_length_app, length_spaces.
  pose proof (str_length_pos D HD0).
  apply try_lens_hit with (String.length D + m)%nat; [lia| |].
  - cbv beta.
    replace (D ++ spaces (S m) ++ obj) with ((D ++ spaces m) ++ String " "%char obj)
      by (rewrite spaces_S_r, !str_app_assoc; reflexivity).
    replace (String.length D + m)%nat with (String.length (D ++ spaces m))
      by (rewrite str_length_app, length_spaces; reflexivity).
    rewrite str_take_app, str_drop_app, (re_match_tail_sp_word obj Hne Hw).
    reflexivity.
  - intros k Hk. cbv beta.
    rewrite <- str_app_assoc.
    rewrite str_drop_app_ge by (rewrite str_length_app, length_spaces; lia).
    rewrite re_match_tail_none; [reflexivity|].
    apply run_len_space_word, str_all_drop, Hw.
Qed.

(** The match of a line "op blanks number blanks object". *)
Lemma re_match_line (op sp D obj : string) (m : nat) :
  op <> "" -> str_all is_word op = true ->
  sp <> "" -> str_all is_space sp = true ->
  D <> "" -> str_all is_dot D = true -> run_len is_space D = 0%nat ->
  obj <> "" -> str_all is_word obj = true ->
  re_match inputRegex true (op ++ sp ++ D ++ spaces (S m) ++ obj)
  = Some [op; (D ++ spaces m); obj].
Proof.
  intros Hop0 Hop Hsp0 Hsp HD0 HD HDs Hne Hw. unfold inputRegex.
  rewrite re_match_RBol, re_match_RCapPlus.
  rewrite (run_len_app_all _ _ _ Hop).
  rewrite (run_len_app_zero _ _ _ Hsp0 (run_len_word_space sp Hsp0 Hsp)).
  pose proof (str_length_pos op Hop0).
  apply try_lens_hit with (String.length op); [lia| |intros k Hk; lia].
  cbv beta. rewrite str_take_app, str_drop_app, re_match_RPlus.
  rewrite (run_len_app_all _ _ _ Hsp), (run_len_app_zero _ _ _ HD0 HDs).
  pose proof (str_length_pos sp Hsp0).
  erewrite try_lens_hit with (j := String.length sp); [reflexivity|lia| |intros k Hk; lia].
  cbv beta. rewrite str_drop_app. apply re_match_dot_part; assumption.
Qed.

(* ------------------------------------------------------------------ *)
(** ** Lemmas on [strconv.ParseInt] and [fmt.Sprintf] of typed numbers *)

Lemma ParseUint_loop_range (cutoff maxVal n : Z) (s : string) :
  0 <= n <= maxVal -> 0 <= fst (ParseUint_loop cutoff maxVal n s) <= maxVal.
Proof.
  revert n; induction s as [|c s IH]; intros n Hn; simpl; [lia|].
  destruct (negb (is_digit c)); [simpl; lia|].
  destruct (cutoff <=? n); [simpl; lia|].
  destruct ((wrapu64 (wrapu64 (n * 10) + digit_val c) <? wrapu64 (n * 10)) ||
            (maxVal <? wrapu64 (wrapu64 (n * 10) + digit_val c))) eqn:E;
    [simpl; lia|].
  apply orb_false_iff in E as [_ E]. apply Z.ltb_ge in E.
  apply IH. split; [|exact E].
  unfold wrapu64. apply Z.mod_pos_bound. lia.
Qed.

Lemma ParseUint_range (s : string) (b : Z) :
  1 <= b <= 64 -> 0 <= fst (ParseUint s b) <= 2 ^ b - 1.
Proof.
  intros Hb. assert (0 < 2 ^ b) by (apply Z.pow_pos_nonneg; lia).
  unfold ParseUint. destruct (String.eqb s ""); [simpl; lia|].
  apply ParseUint_loop_range. lia.
Qed.

(** A successful [ParseInt(s, 10, bitSize)] returns a value of the signed
    [bitSize]-bit range. *)
Lemma ParseInt_ok_range (s : string) (b n : Z) :
  1 <= b <= 64 -> ParseInt s b = (n, None) -> - 2 ^ (b - 1) <= n < 2 ^ (b - 1).
Proof.
  intros Hb H.
  assert (Hc : 0 < 2 ^ (b - 1) <= 2 ^ 63 /\ 2 ^ b = 2 * 2 ^ (b - 1)).
  { split; [split; [apply Z.pow_pos_nonneg|apply Z.pow_le_mono_r]; lia|].
    rewrite <- Z.pow_succ_r by lia. f_equal. lia. }
  unfold ParseInt in H. destruct s as [|c rest]; [discriminate|].
  revert H.
  generalize (if Ascii.eqb c "+"%char then (false, rest)
              else if Ascii.eqb c "-"%char then (true, rest)
              else (false, String c rest)).
  intros [neg s'] H. cbv iota in H.
  pose proof (ParseUint_range s' b Hb) as Hr.
  destruct (ParseUint s' b) as [un err]. simpl in Hr.
  destruct err as [[|]|].
  1: discriminate.
  all: destruct neg; cbn [negb andb] in H.
  1, 3: destruct (Z.ltb_spec (2 ^ (b - 1)) un); [discriminate|];
        injection H as <-;
        destruct (Z.eq_dec un (2 ^ 63)) as [->|Hne];
        [assert (2 ^ (b - 1) = 2 ^ 63) by lia;
         replace (wrap64 (- wrap64 (2 ^ 63))) with (- 2 ^ 63) by reflexivity; lia|];
        rewrite (wrap64_id un) by (unfold int64_min, int64_max; lia);
        rewrite wrap64_id by (unfold int64_min, int64_max; lia); lia.
  all: destruct (Z.leb_spec (2 ^ (b - 1)) un); [discriminate|];
       injection H as <-;
       rewrite wrap64_id by (unfold int64_min, int64_max; lia); lia.
Qed.

(** The digit loop reads a run of digits whose value fits and goes on
    after it. *)
Lemma ParseUint_loop_app (maxVal n : Z) (s1 s2 : string) :
  0 <= maxVal <= maxUint64 -> 0 <= n -> all_digits s1 = true ->
  dec_value n s1 <= maxVal ->
  ParseUint_loop (maxUint64 / 10 + 1) maxVal n (s1 ++ s2)
  = ParseUint_loop (maxUint64 / 10 + 1) maxVal (dec_value n s1) s2.
Proof.
  intros Hm. revert n; induction s1 as [|c s1 IH]; intros n Hn Hs Hv; [reflexivity|].
  rewrite str_app_cons. simpl in Hs, Hv |- *.
  apply andb_true_iff in Hs as [Hc Hs]. rewrite Hc. simpl negb. cbv iota.
  pose proof (digit_val_range c Hc) as Hd.
  pose proof (dec_value_ge (n * 10 + digit_val c) s1 ltac:(lia) Hs) as Hge.
  assert ((2 ^ 64 - 1) / 10 = 1844674407370955161) as E by reflexivity.
  unfold maxUint64 in *. rewrite E.
  destruct (Z.leb_spec (1844674407370955161 + 1) n); [lia|].
  unfold wrapu64. rewrite (Z.mod_small (n * 10)) by lia.
  rewrite Z.mod_small by lia.
  destruct (Z.ltb_spec (n * 10 + digit_val c) (n * 10)); [lia|].
  destruct (Z.ltb_spec maxVal (n * 10 + digit_val c)); [lia|]. simpl.
  rewrite <- E. apply IH; [lia|exact Hs|exact Hv].
Qed.

(** A number followed by a non-digit byte is a syntax error, when the
    digits before it fit in [bitSize] bits. *)
Lemma ParseUint_digits_then (D : string) (c : ascii) (r : string) (b : Z) :
  all_digits D = true -> is_digit c = false -> 1 <= b <= 64 ->
  dec_value 0 D <= 2 ^ b - 1 ->
  ParseUint (D ++ String c r) b = (0, Some ErrSyntax).
Proof.
  intros HD Hc Hb Hv. unfold ParseUint.
  destruct D as [|d D']; [simpl; rewrite Hc; reflexivity|].
  rewrite str_app_cons. cbn [String.eqb]. rewrite <- str_app_cons.
  assert (0 < 2 ^ b <= 2 ^ 64)
    by (split; [apply Z.pow_pos_nonneg|apply Z.pow_le_mono_r]; lia).
  rewrite ParseUint_loop_app; [|unfold maxUint64; lia|lia|exact HD|exact Hv].
  simpl. rewrite Hc. reflexivity.
Qed.

(** [fmt.Sprintf("%d", n)]: an optional minus sign, then the decimal
    digits of [|n|]. *)
Lemma Sprintf_d_shape (n : Z) :
  int64_min <= n <= int64_max ->
  exists D, all_digits D = true /\ D <> "" /\ dec_value 0 D = Z.abs n /\
    Sprintf_d n = if n <? 0 then String "-"%char D else D.
Proof.
  intros Hn. unfold int64_min, int64_max in Hn. unfold Sprintf_d.
  destruct (Z.ltb_spec n 0) as [Hneg|Hpos].
  - assert (Hu : wrapu64 (- wrapu64 n) = - n).
    { unfold wrapu64.
      assert (n mod 2 ^ 64 = n + 2 ^ 64) as E1.
      { symmetry. apply Z.mod_unique with (-1); lia. }
      rewrite E1. symmetry. apply Z.mod_unique with (-1); lia. }
    rewrite Hu.
    destruct (fmt_digits_spec 20 (- n) ltac:(simpl; lia))
      as [Ha [Hv [c [rest [Hcr Hc]]]]].
    exists (fmt_digits 20 (- n) ""). split; [exact Ha|]. split; [rewrite Hcr; discriminate|].
    split; [rewrite Hv; lia|reflexivity].
  - assert (Hu : wrapu64 n = n) by (unfold wrapu64; rewrite Z.mod_small; lia).
    rewrite Hu.
    destruct (fmt_digits_spec 20 n ltac:(simpl; lia))
      as [Ha [Hv [c [rest [Hcr Hc]]]]].
    exists (fmt_digits 20 n ""). split; [exact Ha|]. split; [rewrite Hcr; discriminate|].
    split; [rewrite Hv; lia|reflexivity].
Qed.


Lemma Sprintf_d_text (n : Z) :
  int64_min <= n <= int64_max ->
  Sprintf_d n <> "" /\ str_all is_dot (Sprintf_d n) = true /\
  run_len is_space (Sprintf_d n) = 0%nat.
Proof.
  intros Hn. destruct (Sprintf_d_shape n Hn) as [D [HD [HD0 [_ ->]]]].
  rewrite all_digits_str_all in HD.
  assert (HDdot : str_all is_dot D = true) by exact (str_all_impl _ _ _ digit_dot HD).
  destruct D as [|d D']; [contradiction|].
  simpl in HD. apply andb_true_iff in HD as [Hd _].
  destruct (n <? 0).
  - split; [discriminate|]. split; [|reflexivity].
    cbn [str_all] in HDdot |- *. rewrite HDdot. reflexivity.
  - split; [discriminate|]. split; [exact HDdot|].
    cbn [run_len]. rewrite (digit_not_space d Hd). reflexivity.
Qed.

Lemma parseInput_line (op sp obj : string) (n : Z) (m : nat) :
  op <> "" -> str_all is_word op = true ->
  sp <> "" -> str_all is_space sp = true ->
  obj <> "" -> str_all is_word obj = true ->
  int64_min <= n <= int64_max ->
  parseInput (op ++ sp ++ Sprintf_d n ++ spaces (S m) ++ obj)
  = if is_known_label op then
      match ParseInt (Sprintf_d n ++ spaces m) 32 with
      | (q, None) => (op, obj, q, None)
      | (_, Some e) => ("", "", 0, Some (ErrParsingNumber e))
      end
    else ("", "", 0, Some ErrInvalidOperation).
Proof.
  intros Hop0 Hop Hsp0 Hsp Hne Hw Hn.
  destruct (Sprintf_d_text n Hn) as [HD0 [HD HDs]].
  unfold parseInput, regex_FindAllStringSubmatch.
  rewrite (re_match_line op sp (Sprintf_d n) obj m); try assumption.
  cbn [length hd nth Nat.eqb negb orb].
  destruct (is_known_label op); [|reflexivity].
  destruct (ParseInt _ 32) as [q [e|]]; reflexivity.
Qed.

(** A typed number followed by a blank is a syntax error for
    [ParseInt(s, 10, 32)]. *)
Lemma ParseInt_number_blank (n : Z) (m : nat) :
  - 2 ^ 31 <= n < 2 ^ 31 ->
  ParseInt (Sprintf_d n ++ spaces (S m)) 32 = (0, Some ErrSyntax).
Proof.
  intros Hn.
  destruct (Sprintf_d_shape n ltac:(unfold int64_min, int64_max; lia))
    as [D [HD [HD0 [Hv ->]]]].
  assert (Hfit : dec_value 0 D <= 2 ^ 32 - 1) by (rewrite Hv; lia).
  change (spaces (S m)) with (String " "%char (spaces m)).
  destruct (Z.ltb_spec n 0).
  - rewrite str_app_cons. cbn [ParseInt].
    change (Ascii.eqb "-"%char "+"%char) with false.
    change (Ascii.eqb "-"%char "-"%char) with true. cbv iota.
    rewrite (ParseUint_digits_then D " "%char (spaces m) 32 HD eq_refl) by lia.
    reflexivity.
  - destruct D as [|d D']; [contradiction|].
    pose proof HD as HD'. simpl in HD'. apply andb_true_iff in HD' as [Hd _].
    rewrite str_app_cons. cbn [ParseInt].
    destruct (is_digit_not_sign d Hd) as [Hp Hm]. rewrite Hp, Hm. cbv iota.
    rewrite <- str_app_cons.
    rewrite (ParseUint_digits_then (String d D') " "%char (spaces m) 32 HD eq_refl) by lia.
    reflexivity.
Qed.

(** What a successful [parseInput] returns. *)
Lemma parseInput_ok (ln op obj : string) (q : Z) :
  parseInput ln = (op, obj, q, None) ->
  (op = "put" \/ op = "take") /\ obj <> "" /\ str_all is_word obj = true /\
  - 2 ^ 31 <= q < 2 ^ 31.
Proof.
  unfold parseInput, regex_FindAllStringSubmatch.
  destruct (re_match inputRegex true ln) as [gs|] eqn:E; [|discriminate].
  apply re_match_groups in E.
  change (caps inputRegex) with [is_word; is_dot; is_word] in E.
  inversion E as [|p1 g1 ps1 gs1 _ E1]; subst.
  inversion E1 as [|p2 g2 ps2 gs2 _ E2]; subst.
  inversion E2 as [|p3 g3 ps3 gs3 [Hg3 Hw3] E3]; subst.
  inversion E3; subst.
  cbn [length hd nth Nat.eqb negb orb].
  destruct (is_known_label g1) eqn:Hl; [|discriminate].
  destruct (ParseInt g2 32) as [n [e|]] eqn:Hp; [discriminate|].
  intros H. injection H as <- <- <-.
  split; [|split; [exact Hg3|split; [exact Hw3|]]].
  - unfold is_known_label in Hl. apply orb_true_iff in Hl.
    destruct Hl as [Hl|Hl]; apply String.eqb_eq in Hl; auto.
  - apply (ParseInt_ok_range g2 32 n); [lia|exact Hp].
Qed.

(** X5: every input [parseInput] accepts yields "put" or "take", a
    non-empty object of word characters and a quantity in the [int32]
    range; so the [panic("unsupported operation")] branch of the
    producer's command callback is unreachable. *)
Theorem parse_input_success_shape :
  (forall (ln op obj : string) (q : Z),
     parseInput ln = (op, obj, q, None) ->
     (op = "put" \/ op = "take") /\ obj <> "" /\ str_all is_word obj = true /\
     - 2 ^ 31 <= q < 2 ^ 31) /\
  (forall (env : PEnv) (w : World) (ln : string),
     Producer_onInput env w ln <> Panicked).
Proof.
  split; [exact parseInput_ok|].
  intros env w ln. unfold Producer_onInput.
  destruct (String.eqb ln "exit"); [discriminate|].
  destruct (parseInput ln) as [[[op obj] q] [e|]] eqn:Hp; [discriminate|].
  destruct (parseInput_ok ln op obj q Hp) as [[-> | ->] _]; cbn -[Put Take].
  - destruct (Put _ _ _ _) as [w' [u|e]]; discriminate.
  - destruct (Take _ _ _ _ _ _) as [[w' [u|e]]|]; [discriminate| |discriminate].
    destruct (decide (e = ErrInsuffQuant)); discriminate.
Qed.

Lemma parse_input_success_shape_witness :
  (("put" = "put" \/ "put" = "take") /\ "apple" <> "" /\
   str_all is_word "apple" = true /\ - 2 ^ 31 <= 5 < 2 ^ 31) /\
  Producer_onInput (mkPEnv 0 (fun _ => []) (fun _ => "1"))
    (mkWorld empty_store []) "sell 5 apple" <> Panicked.
Proof.
  destruct parse_input_success_shape as [H1 H2]. split.
  - apply (H1 "put 5 apple"). vm_compute. reflexivity.
  - apply H2.
Defined.

(** X6: a line "op blanks number blank object", with [op] and [object]
    runs of word characters and the number written as [%d] of an [int64],
    is split by [inputRegex] at those blanks: [parseInput] returns the
    operation, the object and the number when [op] is "put" or "take" and
    the number is in the [int32] range, a range error for a larger
    number, and the invalid-operation error for any other word. *)
Theorem parse_input_roundtrip (op sp obj : string) (n : Z) :
  op <> "" -> str_all is_word op = true ->
  sp <> "" -> str_all is_space sp = true ->
  obj <> "" -> str_all is_word obj = true ->
  int64_min <= n <= int64_max ->
  parseInput (op ++ sp ++ Sprintf_d n ++ " " ++ obj)
  = if negb (is_known_label op) then ("", "", 0, Some ErrInvalidOperation)
    else if (- 2 ^ 31 <=? n) && (n <? 2 ^ 31) then (op, obj, n, None)
    else ("", "", 0, Some (ErrParsingNumber ErrRange)).
Proof.
  intros Hop0 Hop Hsp0 Hsp Hne Hw Hn.
  change (" " ++ obj) with (spaces 1 ++ obj).
  rewrite (parseInput_line op sp obj n 0); try assumption.
  destruct (is_known_label op); [|reflexivity]. cbn [negb spaces].
  rewrite str_app_nil_r, (ParseInt_Sprintf_d n 32 Hn (or_introl eq_refl)).
  change (32 - 1) with 31.
  destruct ((- 2 ^ 31 <=? n) && (n <? 2 ^ 31)); reflexivity.
Qed.

Lemma parse_input_roundtrip_witness :
  parseInput ("take" ++ " " ++ Sprintf_d (-3) ++ " " ++ "apple")
  = ("take", "apple", -3, None).
Proof.
  rewrite (parse_input_roundtrip "take" " " "apple" (-3));
    try (vm_compute; reflexivity); try discriminate.
  unfold int64_min, int64_max. lia.
Defined.

(** X7: in a line with the operation put or take, a word object and a
    number in the int32 range, two or more blanks between the number and
    the object are not accepted: the greedy [(.+)] group takes all blanks but the last one,
    so [strconv.ParseInt] sees the number followed by blanks and
    [parseInput] returns a syntax error of the number. *)
Theorem parse_input_extra_blanks (op sp obj : string) (n : Z) (m : nat) :
  is_known_label op = true -> str_all is_word op = true ->
  sp <> "" -> str_all is_space sp = true ->
  obj <> "" -> str_all is_word obj = true ->
  - 2 ^ 31 <= n < 2 ^ 31 -> (1 <= m)%nat ->
  parseInput (op ++ sp ++ Sprintf_d n ++ spaces (S m) ++ obj)
  = ("", "", 0, Some (ErrParsingNumber ErrSyntax)).
Proof.
  intros Hl Hop Hsp0 Hsp Hne Hw Hn Hm.
  assert (Hop0 : op <> "") by (intros ->; discriminate Hl).
  rewrite (parseInput_line op sp obj n m); try assumption;
    [|unfold int64_min, int64_max; lia].
  rewrite Hl. destruct m as [|m]; [lia|].
  rewrite (ParseInt_number_blank n m Hn). reflexivity.
Qed.

Lemma parse_input_extra_blanks_witness :
  parseInput ("put" ++ " " ++ Sprintf_d 5 ++ spaces 2 ++ "apple")
  = ("", "", 0, Some (ErrParsingNumber ErrSyntax)).
Proof.
  apply parse_input_extra_blanks; try (vm_compute; reflexivity); try discriminate; lia.
Defined.

(* ------------------------------------------------------------------ *)
(** ** Lemmas on the command line loop *)

Lemma ScanLines_loop_chunk {S} (onInput : S -> string -> outcome S)
    (buf l rest : string) (st : S) :
  no_newline l = true ->
  ScanLines_loop onInput buf (l ++ rest) st = ScanLines_loop onInput (buf ++ l) rest st.
Proof.
  revert buf; induction l as [|c l IH]; intros buf Hl.
  - rewrite str_app_nil_r. reflexivity.
  - unfold no_newline in Hl. cbn [str_all] in Hl.
    apply andb_true_iff in Hl as [Hc Hl]. apply negb_true_iff in Hc.
    rewrite str_app_cons. cbn [ScanLines_loop]. rewrite Hc.
    rewrite (IH _ Hl), str_app_assoc. reflexivity.
Qed.

Lemma remove_newlines_line (l : string) :
  no_newline l = true -> remove_newlines (l ++ String newline "") = l.
Proof.
  induction l as [|c l IH]; intros Hl; [reflexivity|].
  unfold no_newline in Hl. cbn [str_all] in Hl.
  apply andb_true_iff in Hl as [Hc Hl]. apply negb_true_iff in Hc.
  rewrite str_app_cons. cbn [remove_newlines]. rewrite Hc, (IH Hl). reflexivity.
Qed.

(** One complete line: the callback gets it without its newline. *)
Lemma ScanLines_line {S} (onInput : S -> string -> outcome S)
    (l rest : string) (st : S) :
  no_newline l = true ->
  ScanLines onInput (l ++ String newline rest) st
  = match onInput st l with
    | Returned st' None => ScanLines onInput rest st'
    | Returned st' (Some err) =>
        Returned st' (if decide (err = CliAbortScan) then None else Some err)
    | Panicked => Panicked
    | OutOfFuel => OutOfFuel
    end.
Proof.
  intros Hl. unfold ScanLines.
  rewrite (ScanLines_loop_chunk _ _ _ _ _ Hl), str_app_nil_l.
  cbn [ScanLines_loop]. rewrite Ascii.eqb_refl.
  rewrite (remove_newlines_line l Hl). reflexivity.
Qed.

Lemma ScanLines_tail {S} (onInput : S -> string -> outcome S) (buf tail : string) (st : S) :
  no_newline tail = true -> ScanLines_loop onInput buf tail st = Returned st (Some CliEOF).
Proof.
  revert buf; induction tail as [|c tail IH]; intros buf Ht; [reflexivity|].
  unfold no_newline in Ht. cbn [str_all] in Ht.
  apply andb_true_iff in Ht as [Hc Ht]. apply negb_true_iff in Hc.
  cbn [ScanLines_loop]. rewrite Hc. apply IH, Ht.
Qed.

Lemma ScanLines_join {S} (onInput : S -> string -> outcome S)
    (ls : list string) (tail : string) (st : S) :
  Forall (fun l => no_newline l = true) ls -> no_newline tail = true ->
  ScanLines onInput (join_lines ls tail) st = run_lines onInput ls st.
Proof.
  intros Hls Ht. revert st; induction Hls as [|l ls Hl Hls IH]; intros st.
  - apply ScanLines_tail, Ht.
  - cbn [join_lines run_lines]. rewrite (ScanLines_line _ _ _ _ Hl).
    destruct (onInput st l) as [st' [err|]| |]; [reflexivity|apply IH|reflexivity|reflexivity].
Qed.

Lemma ScanLines_loop_no_error {S} (onInput : S -> string -> outcome S)
    (buf input : string) (st : S) :
  (forall st0 l, exists st1, onInput st0 l = Returned st1 None) ->
  exists st', ScanLines_loop onInput buf input st = Returned st' (Some CliEOF).
Proof.
  intros Hok. revert buf st; induction input as [|c input IH]; intros buf st.
  - exists st. reflexivity.
  - cbn [ScanLines_loop]. destruct (Ascii.eqb c newline); [|apply IH].
    destruct (Hok st (remove_newlines (buf ++ String c ""))) as [st1 ->]. apply IH.
Qed.

(** X8: [cli.ScanLines] hands the callback each complete line of the
    input, without its newline, in order, and stops at the first error
    (returning [nil] for [ErrAbortScan]); a last line without a newline is
    never handed over, and the end of the input is returned as [io.EOF],
    so with a callback that never fails the loop always ends in
    [io.EOF], never in [nil]. *)
Theorem scan_lines_complete_lines :
  (forall (S : Type) (onInput : S -> string -> outcome S)
          (ls : list string) (tail : string) (st : S),
     Forall (fun l => no_newline l = true) ls -> no_newline tail = true ->
     ScanLines onInput (join_lines ls tail) st = run_lines onInput ls st) /\
  (forall (S : Type) (onInput : S -> string -> outcome S) (input : string) (st : S),
     (forall st0 l, exists st1, onInput st0 l = Returned st1 None) ->
     exists st', ScanLines onInput input st = Returned st' (Some CliEOF)).
Proof.
  split.
  - intros S onInput ls tail st. apply ScanLines_join.
  - intros S onInput input st. apply ScanLines_loop_no_error.
Qed.

Lemma scan_lines_complete_lines_witness :
  ScanLines (fun (k : nat) (l : string) => Returned (k + String.length l)%nat None)
    (join_lines ["ab"; "c"] "def") 0%nat
  = run_lines (fun (k : nat) (l : string) => Returned (k + String.length l)%nat None)
      ["ab"; "c"] 0%nat.
Proof.
  destruct scan_lines_complete_lines as [H _].
  apply H; [repeat constructor|reflexivity].
Defined.

Lemma ScanDB_print (s : Store) :
  Consumer_ScanDB (fun _ => true) (fun _ _ => true) s = (s, Ok tt).
Proof.
  unfold Consumer_ScanDB, DB_WithinTx, bind, Tx_GetProjectionVersion.
  cbn [negb]. unfold Tx_ScanObjects, Tx_scanPrefix.
  assert (Hl : forall items : list (string * Z),
            scanPrefix_loop (fun _ _ => None) items = None).
  { induction items as [|[k v] items IH]; [reflexivity|exact IH]. }
  rewrite Hl. reflexivity.
Qed.

(** X9: a consumer command session leaves the projection as it was
    ("print" only reads it in a read-only transaction) and processes the
    lines until "exit": [ScanLines] returns [nil] when some complete line
    is "exit" and [io.EOF] otherwise (which [main] then logs as
    "ERR CLI"). *)
Theorem consumer_cli_session (ls : list string) (tail : string) (s : Store) :
  Forall (fun l => no_newline l = true) ls -> no_newline tail = true ->
  ScanLines Consumer_onInput (join_lines ls tail) s
  = Returned s (if existsb (fun l => String.eqb l "exit") ls then None
                else Some CliEOF).
Proof.
  intros Hls Ht. rewrite (ScanLines_join _ _ _ _ Hls Ht).
  clear Hls. induction ls as [|l ls IH]; [reflexivity|].
  cbn [run_lines existsb]. unfold Consumer_onInput.
  destruct (String.eqb l "exit"); [reflexivity|]. cbn [orb].
  destruct (String.eqb l "print"); [rewrite ScanDB_print|]; exact IH.
Qed.

Lemma consumer_cli_session_witness :
  ScanLines Consumer_onInput (join_lines ["print"; "exit"; "print"] "") empty_store
  = Returned empty_store None.
Proof.
  rewrite (consumer_cli_session ["print"; "exit"; "print"] "" empty_store);
    [reflexivity|repeat constructor|reflexivity].
Defined.

Lemma word_no_newline (s : string) : str_all is_word s = true -> no_newline s = true.
Proof.
  apply str_all_impl. intros c Hc. rewrite (dot_not_newline c (word_dot c Hc)). reflexivity.
Qed.

Lemma no_newline_app (a b : string) :
  no_newline (a ++ b) = no_newline a && no_newline b.
Proof. apply str_all_app. Qed.

Lemma known_label_cases (op : string) :
  is_known_label op = true -> op = "put" \/ op = "take".
Proof.
  unfold is_known_label. intros H. apply orb_true_iff in H.
  destruct H as [H|H]; apply String.eqb_eq in H; auto.
Qed.

Lemma typed_line_facts (op obj : string) (n : Z) :
  is_known_label op = true -> obj <> "" -> str_all is_word obj = true ->
  - 2 ^ 31 <= n < 2 ^ 31 ->
  no_newline (typed_line op n obj) = true /\
  String.eqb (typed_line op n obj) "exit" = false /\
  parseInput (typed_line op n obj) = (op, obj, n, None).
Proof.
  intros Hl Hne Hw Hn.
  assert (Hn64 : int64_min <= n <= int64_max) by (unfold int64_min, int64_max; lia).
  destruct (Sprintf_d_text n Hn64) as [_ [HD _]].
  assert (Hop : op <> "" /\ str_all is_word op = true)
    by (destruct (known_label_cases op Hl) as [-> | ->]; split; (discriminate || reflexivity)).
  destruct Hop as [Hop0 Hop].
  split; [|split].
  - assert (HDn : no_newline (Sprintf_d n) = true).
    { apply (str_all_impl is_dot); [|exact HD].
      intros c Hc. rewrite (dot_not_newline c Hc). reflexivity. }
    unfold typed_line. rewrite !no_newline_app.
    rewrite (word_no_newline op Hop), (word_no_newline obj Hw), HDn.
    reflexivity.
  - unfold typed_line. destruct (known_label_cases op Hl) as [-> | ->]; reflexivity.
  - unfold typed_line. change (" " ++ obj) with (spaces 1 ++ obj).
    rewrite (parseInput_line op " " obj n 0); try assumption; try discriminate;
      [|reflexivity].
    rewrite Hl. cbn [spaces]. rewrite str_app_nil_r.
    rewrite (ParseInt_Sprintf_d n 32 Hn64 (or_introl eq_refl)).
    change (32 - 1) with 31.
    destruct (Z.leb_spec (- 2 ^ 31) n); [|lia].
    destruct (Z.ltb_spec n (2 ^ 31)); [reflexivity|lia].
Qed.

(** X10: a "put" or "take" line with a negative quantity in the int32
    range ([-2^31 <= n < 0]) passes
    [parseInput] (the [(.+)] group accepts the minus sign) but fails
    [ValidateInput]; the callback returns that error, which is neither
    [ErrInsuffQuant] nor [ErrAbortScan], so [ScanLines] stops there with
    it, whatever follows, and the producer's [main] exits via [Fatalf];
    nothing is appended and the projection is unchanged. *)
Theorem producer_cli_negative_quantity (env : PEnv) (w : World)
    (op obj rest : string) (n : Z) :
  is_known_label op = true -> obj <> "" -> str_all is_word obj = true ->
  - 2 ^ 31 <= n < 0 ->
  ScanLines (Producer_onInput env) (typed_line op n obj ++ String newline rest) w
  = Returned w (Some (CliErr ErrInvalidQuantity)).
Proof.
  intros Hl Hne Hw Hn.
  destruct (typed_line_facts op obj n Hl Hne Hw ltac:(lia)) as [Hnl [Hex Hp]].
  rewrite (ScanLines_line _ _ _ _ Hnl). unfold Producer_onInput.
  rewrite Hex, Hp. cbv iota.
  assert (HV : ValidateInput obj n = Some ErrInvalidQuantity).
  { unfold ValidateInput. rewrite (String_eqb_neq obj "" Hne).
    destruct (Z.ltb_spec n 0); [reflexivity|lia]. }
  destruct (known_label_cases op Hl) as [-> | ->]; cbn [String.eqb Ascii.eqb Bool.eqb andb].
  - unfold Put. rewrite HV. reflexivity.
  - unfold Take. rewrite HV. reflexivity.
Qed.

Lemma producer_cli_negative_quantity_witness :
  ScanLines (Producer_onInput (mkPEnv 3 (fun _ => []) (fun _ => "1")))
    (typed_line "take" (-2) "apple" ++ String newline "put 1 apple")
    (mkWorld empty_store [])
  = Returned (mkWorld empty_store []) (Some (CliErr ErrInvalidQuantity)).
Proof.
  apply producer_cli_negative_quantity; try reflexivity; try discriminate; lia.
Defined.

(** X11: a "put" line with a quantity in [0 .. 2^31) appends exactly one
    put event carrying the object and the quantity at the version the log
    assigns, leaves the projection as it was, and the session goes on
    with the next line. *)
Theorem producer_cli_put_line (env : PEnv) (w : World) (obj rest : string) (n : Z) :
  obj <> "" -> str_all is_word obj = true -> 0 <= n < 2 ^ 31 ->
  ScanLines (Producer_onInput env) (typed_line "put" n obj ++ String newline rest) w
  = ScanLines (Producer_onInput env) rest
      (mkWorld (db w) (wlog w ++
         [mkClientEvent (env_fresh env (wlog w)) "put" (Some (mkPayload obj n))])%list).
Proof.
  intros Hne Hw Hn.
  destruct (typed_line_facts "put" obj n eq_refl Hne Hw ltac:(lia)) as [Hnl [Hex Hp]].
  rewrite (ScanLines_line _ _ _ _ Hnl). unfold Producer_onInput.
  rewrite Hex, Hp. cbv iota. cbn [String.eqb Ascii.eqb Bool.eqb andb].
  assert (HV : ValidateInput obj n = None).
  { unfold ValidateInput. rewrite (String_eqb_neq obj "" Hne).
    destruct (Z.ltb_spec n 0); [lia|reflexivity]. }
  unfold Put. rewrite HV. reflexivity.
Qed.

Lemma producer_cli_put_line_witness :
  ScanLines (Producer_onInput (mkPEnv 3 (fun _ => []) (fun _ => "1")))
    (typed_line "put" 4 "apple" ++ String newline "")
    (mkWorld empty_store [])
  = ScanLines (Producer_onInput (mkPEnv 3 (fun _ => []) (fun _ => "1"))) ""
      (mkWorld empty_store [mkClientEvent "1" "put" (Some (mkPayload "apple" 4))]).
Proof.
  apply (producer_cli_put_line (mkPEnv 3 (fun _ => []) (fun _ => "1"))
           (mkWorld empty_store []) "apple" "" 4); try reflexivity; try discriminate; lia.
Defined.

(** X12: a "take" line with [0 <= n < 2^31] asking for more than the
    projection holds (on a
    projection whose quantities are positive [int64] values, as replay
    keeps them) is reported and skipped: the world (projection and log)
    is as it was and the session goes on with the next line. *)
Theorem producer_cli_take_insufficient (env : PEnv) (w : World)
    (obj rest : string) (n : Z) :
  obj <> "" -> str_all is_word obj = true -> 0 <= n < 2 ^ 31 ->
  store_inv (db w) -> default 0 (objects (db w) !! obj) < n ->
  ScanLines (Producer_onInput env) (typed_line "take" n obj ++ String newline rest) w
  = ScanLines (Producer_onInput env) rest w.
Proof.
  intros Hne Hw Hn Hinv Hlt.
  destruct (typed_line_facts "take" obj n eq_refl Hne Hw ltac:(lia)) as [Hnl [Hex Hp]].
  rewrite (ScanLines_line _ _ _ _ Hnl). unfold Producer_onInput.
  rewrite Hex, Hp. cbv iota. cbn [String.eqb Ascii.eqb Bool.eqb andb].
  assert (HV : ValidateInput obj n = None).
  { unfold ValidateInput. rewrite (String_eqb_neq obj "" Hne).
    destruct (Z.ltb_spec n 0); [lia|reflexivity]. }
  unfold Take. rewrite HV.
  destruct (env_fuel env); cbn [Client_TryAppend];
    rewrite (Take_build_insuff obj n (db w) Hinv) by (unfold int64_max; lia);
    destruct w; reflexivity.
Qed.

Lemma producer_cli_take_insufficient_witness :
  ScanLines (Producer_onInput (mkPEnv 3 (fun _ => []) (fun _ => "1")))
    (typed_line "take" 4 "apple" ++ String newline "")
    (mkWorld empty_store [])
  = ScanLines (Producer_onInput (mkPEnv 3 (fun _ => []) (fun _ => "1"))) ""
      (mkWorld empty_store []).
Proof.
  apply producer_cli_take_insufficient; try reflexivity; try discriminate;
    try lia; exact empty_store_inv.
Defined.


(* ------------------------------------------------------------------ *)
(** ** Lemmas on sync passes: catching up, failing events, invariants *)

Lemma Consumer_apply_Ok_version (e : client_Event) (s s1 : Store) :
  Consumer_apply e s = (s1, Ok tt) -> pversion s1 = ev_Version e.
Proof.
  destruct (Decode e) as [ev|err] eqn:HD.
  - rewrite (Consumer_apply_Ok _ _ _ HD). intros H. injection H as <-. reflexivity.
  - rewrite (Consumer_apply_Err _ _ _ HD). discriminate.
Qed.

Lemma replay_Ok_version (l : list client_Event) (s s' : Store) :
  replay Consumer_apply l s = (s', Ok tt) ->
  pversion s' = match last l with None => pversion s | Some e => ev_Version e end.
Proof.
  revert s; induction l as [|e l IH]; intros s H.
  - injection H as <-. reflexivity.
  - cbn [replay] in H. unfold bind in H.
    destruct (Consumer_apply e s) as [s1 [[]|err]] eqn:He; [|discriminate].
    rewrite (IH s1 H). destruct l as [|c l].
    + apply (Consumer_apply_Ok_version _ _ _ He).
    + change (last (e :: c :: l)) with (last (c :: l)).
      destruct (last (c :: l)) as [y|] eqn:E; [reflexivity|].
      apply last_None in E. discriminate.
Qed.

Lemma replay_fails (l : list client_Event) (s : Store) (e : client_Event) (err : error) :
  In e l -> Decode e = Err err ->
  exists err' s1, replay Consumer_apply l s = (s1, Err err').
Proof.
  revert s; induction l as [|x l IH]; intros s Hin HD; [destruct Hin|].
  cbn [replay]. unfold bind.
  destruct Hin as [->|Hin].
  - rewrite (Consumer_apply_Err _ _ _ HD). eauto.
  - destruct (Consumer_apply x s) as [s1 [[]|err1]]; [|eauto].
    apply IH; assumption.
Qed.

(** The first event of the log carrying version [v]. *)
Lemma scan_from_In (v : string) (lg : Log) :
  In v (map ev_Version lg) ->
  exists pre x post, lg = (pre ++ x :: post)%list /\ ev_Version x = v /\
    ~ In v (map ev_Version pre) /\ scan_from v lg = Some (x :: post).
Proof.
  induction lg as [|y lg IH]; intros Hin; [destruct Hin|].
  destruct (String.eqb_spec (ev_Version y) v) as [E|Hne].
  - exists [], y, lg. split; [reflexivity|]. split; [exact E|].
    split; [intros []|]. simpl. rewrite E, String_eqb_refl'. reflexivity.
  - destruct Hin as [Hin|Hin]; [contradiction|].
    destruct (IH Hin) as [pre [x [post [-> [Hx [Hpre Hs]]]]]].
    exists (y :: pre), x, post. split; [reflexivity|]. split; [exact Hx|].
    split.
    + intros [H|H]; [contradiction|contradiction].
    + simpl. rewrite (String_eqb_neq _ _ Hne). exact Hs.
Qed.

Lemma log_wf_versions (lg : Log) (v : string) :
  log_wf lg -> In v (map ev_Version lg) -> v <> "" /\ v <> "0".
Proof.
  intros [_ Hf] Hin. apply in_map_iff in Hin as [e [<- He]].
  exact (proj1 (List.Forall_forall _ _) Hf e He).
Qed.

(** The marker [v] and the version [sv] the scan starts from. *)
Lemma sync_start (lg : Log) (s : Store) :
  log_wf lg -> lg <> [] ->
  (pversion s = "" \/ In (pversion s) (map ev_Version lg)) ->
  let v := pversion s in
  let sv := if String.eqb v "" then VersionInitial lg else v in
  sv <> "0" /\ exists pre x post, lg = (pre ++ x :: post)%list /\
    ev_Version x = sv /\ ~ In sv (map ev_Version pre) /\
    scan_from sv lg = Some (x :: post) /\
    not_marker v (x :: post) = if String.eqb v "" then x :: post else post.
Proof.
  intros Hwf Hne Hv v sv.
  assert (Hin : In sv (map ev_Version lg)).
  { unfold sv. destruct (String.eqb_spec v "") as [E|E].
    - destruct lg as [|y lg]; [contradiction|]. left. reflexivity.
    - destruct Hv as [Hv|Hv]; [contradiction|exact Hv]. }
  split; [exact (proj2 (log_wf_versions lg sv Hwf Hin))|].
  destruct (scan_from_In sv lg Hin) as [pre [x [post [Hlg [Hx [Hpre Hs]]]]]].
  exists pre, x, post. split; [exact Hlg|]. split; [exact Hx|]. split; [exact Hpre|].
  split; [exact Hs|].
  pose proof Hwf as [Hnd Hvs]. rewrite Hlg in Hnd, Hvs.
  rewrite map_app in Hnd. simpl in Hnd.
  pose proof (List.NoDup_remove_2 _ _ _ Hnd) as Hx'. rewrite in_app_iff in Hx'.
  apply Forall_app in Hvs as [_ Hvs].
  unfold sv in *. destruct (String.eqb_spec v "") as [E|E].
  - rewrite E. apply not_marker_all. eapply Forall_impl; [exact Hvs|].
    intros y [Hy _]. exact Hy.
  - unfold not_marker. cbn [List.filter]. rewrite <- Hx, String_eqb_refl'.
    cbn [negb]. apply not_marker_all.
    apply List.Forall_forall. intros y Hy Heq. apply Hx'. right.
    rewrite <- Heq. apply in_map. exact Hy.
Qed.

Lemma Consumer_Sync_scan (lg : Log) (s : Store) (es : Log) :
  let v := pversion s in
  let sv := if String.eqb v "" then VersionInitial lg else v in
  sv <> "0" -> scan_from sv lg = Some es ->
  Consumer_Sync lg s = DB_WithinTx ReadWrite (replay Consumer_apply (not_marker v es)) s.
Proof.
  intros v sv Hsv Hes. unfold Consumer_Sync, DB_WithinTx.
  rewrite (Consumer_Sync_body_scan lg s es Hsv Hes). reflexivity.
Qed.

Lemma Consumer_Sync_at_head (lg : Log) (s : Store) :
  log_wf lg -> lg <> [] -> pversion s = head_version lg ->
  Consumer_Sync lg s = (s, Ok tt) /\ Producer_Sync lg false s = (s, Ok "").
Proof.
  intros Hwf Hne Hv.
  destruct lg as [|x l'] using rev_ind; [contradiction|]. clear IHl'.
  rewrite head_version_snoc in Hv.
  pose proof Hwf as [Hnd Hvs].
  apply Forall_app in Hvs. destruct Hvs as [_ Hvs].
  inversion Hvs as [|? ? [Hxne Hx0] _]; subst.
  rewrite map_app in Hnd. simpl in Hnd.
  pose proof (List.NoDup_remove_2 _ _ _ Hnd) as Hx.
  rewrite app_nil_r in Hx.
  assert (Hscan : scan_from (ev_Version x) (l' ++ [x])%list = Some [x])
    by (rewrite scan_from_skip_prefix; [apply scan_from_here|exact Hx]).
  split.
  - rewrite (Consumer_Sync_scan _ s [x]).
    + rewrite Hv. unfold not_marker; cbn [List.filter].
      rewrite String_eqb_refl'. reflexivity.
    + rewrite Hv, (String_eqb_neq _ _ Hxne). exact Hx0.
    + rewrite Hv, (String_eqb_neq _ _ Hxne). exact Hscan.
  - unfold Producer_Sync, DB_WithinTx, Producer_sync, bind, Tx_GetProjectionVersion.
    rewrite Hv, (String_eqb_neq _ _ Hxne), (String_eqb_neq _ _ Hx0).
    unfold Client_Scan. rewrite Hscan. cbn [scan_each].
    rewrite String_eqb_refl'. reflexivity.
Qed.

Lemma forget_Err {A} (r : result A) (err : error) : forget r = Err err -> r = Err err.
Proof. destruct r; simpl; congruence. Qed.

(** X13: a successful [Sync] over a non-empty log, from a projection
    whose marker is empty or the version of a logged event, moves the
    marker to the log head; a second pass (consumer's or producer's) then
    changes nothing, and [Producer.Sync] returns [""] as no event was
    applied. *)
Theorem sync_catches_up_to_head (lg : Log) (s s' : Store) :
  log_wf lg -> lg <> [] ->
  (pversion s = "" \/ In (pversion s) (map ev_Version lg)) ->
  Consumer_Sync lg s = (s', Ok tt) ->
  pversion s' = head_version lg /\
  Consumer_Sync lg s' = (s', Ok tt) /\
  Producer_Sync lg false s' = (s', Ok "").
Proof.
  intros Hwf Hne Hv H.
  destruct (sync_start lg s Hwf Hne Hv) as [Hsv [pre [x [post [Hlg [Hx [_ [Hs Hnm]]]]]]]].
  rewrite (Consumer_Sync_scan lg s (x :: post) Hsv Hs), Hnm in H.
  unfold DB_WithinTx in H.
  assert (Hhead : head_version lg = ev_Version (default x (last post))).
  { rewrite Hlg. unfold head_version. rewrite last_app_cons.
    destruct post as [|c post]; [reflexivity|].
    change (last (x :: c :: post)) with (last (c :: post)).
    destruct (last (c :: post)) as [y|] eqn:E; [reflexivity|].
    apply last_None in E. discriminate. }
  assert (Hver : pversion s' = head_version lg).
  { rewrite Hhead.
    destruct (String.eqb_spec (pversion s) "") as [E|E].
    - destruct (replay Consumer_apply (x :: post) s) as [s1 [[]|err]] eqn:Hr;
        [|discriminate].
      injection H as <-. rewrite (replay_Ok_version _ _ _ Hr).
      destruct post as [|c post]; [reflexivity|].
      change (last (x :: c :: post)) with (last (c :: post)).
      destruct (last (c :: post)) as [y|] eqn:Ey; [reflexivity|].
      apply last_None in Ey. discriminate.
    - destruct (replay Consumer_apply post s) as [s1 [[]|err]] eqn:Hr;
        [|discriminate].
      injection H as <-. rewrite (replay_Ok_version _ _ _ Hr).
      destruct (last post) as [y|]; [reflexivity|]. simpl. rewrite Hx.
      destruct (String.eqb_spec (pversion s) ""); [contradiction|reflexivity]. }
  split; [exact Hver|]. exact (Consumer_Sync_at_head lg s' Hwf Hne Hver).
Qed.

Lemma sync_catches_up_to_head_witness :
  let lg := [mkClientEvent "1" "put" (Some (mkPayload "apple" 5));
             mkClientEvent "2" "take" (Some (mkPayload "apple" 2))] in
  pversion (mkStore {[ "apple" := 3 ]} "2") = head_version lg /\
  Consumer_Sync lg (mkStore {[ "apple" := 3 ]} "2") = (mkStore {[ "apple" := 3 ]} "2", Ok tt) /\
  Producer_Sync lg false (mkStore {[ "apple" := 3 ]} "2")
    = (mkStore {[ "apple" := 3 ]} "2", Ok "").
Proof.
  cbn zeta. apply (sync_catches_up_to_head _ empty_store).
  - split.
    + simpl. repeat constructor; simpl; intuition discriminate.
    + repeat constructor; discriminate.
  - discriminate.
  - left. reflexivity.
  - vm_compute. reflexivity.
Defined.

(** The first event with a version found in [pre] lies in [pre]. *)
Lemma first_version_in_prefix (pre post p1 p2 : Log) (x : client_Event) :
  (pre ++ post)%list = (p1 ++ x :: p2)%list ->
  ~ In (ev_Version x) (map ev_Version p1) ->
  In (ev_Version x) (map ev_Version pre) ->
  exists m, pre = (p1 ++ x :: m)%list.
Proof.
  revert pre; induction p1 as [|z p1 IH]; intros pre Heq Hp1 Hin.
  - destruct pre as [|y pre]; [destruct Hin|].
    simpl in Heq. injection Heq as -> _. exists pre. reflexivity.
  - destruct pre as [|y pre]; [destruct Hin|].
    simpl in Heq. injection Heq as -> Heq.
    destruct Hin as [Hy|Hin]; [exfalso; apply Hp1; left; exact Hy|].
    destruct (IH pre Heq (fun H => Hp1 (or_intror H)) Hin) as [m ->].
    exists m. reflexivity.
Qed.

(** X14: an event after the marker that does not decode (unknown label or
    bad payload) makes every [Sync] pass fail and discard its transaction:
    the projection, marker included, stays as it was, so each later pass
    meets the same event again and fails the same way. *)
Theorem sync_stuck_on_bad_event (pre post : Log) (s : Store)
    (e : client_Event) (err : error) :
  log_wf (pre ++ post)%list ->
  (pversion s = "" \/ In (pversion s) (map ev_Version pre)) ->
  In e post -> Decode e = Err err ->
  exists err', Consumer_Sync (pre ++ post)%list s = (s, Err err') /\
    Producer_Sync (pre ++ post)%list false s = (s, Err err').
Proof.
  intros Hwf Hv Hin HD.
  assert (Hne : (pre ++ post)%list <> []).
  { intros H. apply app_eq_nil in H as [_ ->]. destruct Hin. }
  assert (Hv' : pversion s = "" \/ In (pversion s) (map ev_Version (pre ++ post)%list)).
  { destruct Hv as [Hv|Hv]; [left; exact Hv|right].
    rewrite map_app. apply in_or_app. left. exact Hv. }
  destruct (sync_start _ s Hwf Hne Hv') as [Hsv [p1 [x [p2 [Hlg [Hx [Hp1 [Hs Hnm]]]]]]]].
  assert (Hine : In e (not_marker (pversion s) (x :: p2))).
  { rewrite Hnm. destruct (String.eqb_spec (pversion s) "") as [E|E].
    - assert (Hin2 : In e (pre ++ post)%list) by (apply in_or_app; right; exact Hin).
      destruct (pre ++ post)%list as [|y rest] eqn:Hpp; [contradiction|].
      cbn [VersionInitial] in Hx, Hp1.
      destruct (first_version_in_prefix [y] rest p1 p2 x) as [m Hm].
      + exact Hlg.
      + rewrite Hx. exact Hp1.
      + rewrite Hx. left. reflexivity.
      + destruct p1 as [|z p1]; [|destruct p1; discriminate].
        simpl in Hlg. rewrite <- Hlg. exact Hin2.
    - destruct Hv as [Hv|Hv]; [contradiction|].
      destruct (first_version_in_prefix pre post p1 p2 x Hlg) as [m ->].
      + rewrite Hx. destruct (String.eqb_spec (pversion s) ""); [contradiction|]. exact Hp1.
      + rewrite Hx. destruct (String.eqb_spec (pversion s) ""); [contradiction|]. exact Hv.
      + rewrite <- app_assoc in Hlg. apply app_inv_head in Hlg.
        injection Hlg as Hlg. rewrite <- Hlg. apply in_or_app. right. exact Hin. }
  destruct (replay_fails _ s e err Hine HD) as [err' [s1 Hr]].
  assert (Hc : Consumer_Sync (pre ++ post)%list s = (s, Err err')).
  { rewrite (Consumer_Sync_scan _ s (x :: p2) Hsv Hs).
    unfold DB_WithinTx. rewrite Hr. reflexivity. }
  exists err'. split; [exact Hc|].
  pose proof (Producer_Sync_forget (pre ++ post)%list s) as Hf.
  rewrite Hc in Hf.
  destruct (Producer_Sync (pre ++ post)%list false s) as [s2 r].
  simpl in Hf. injection Hf as -> Hr2. apply forget_Err in Hr2. subst r. reflexivity.
Qed.

Lemma sync_stuck_on_bad_event_witness :
  exists err',
    Consumer_Sync ([mkClientEvent "1" "put" (Some (mkPayload "apple" 5))] ++
                   [mkClientEvent "2" "restock" (Some (mkPayload "apple" 1))])%list
      empty_store = (empty_store, Err err') /\
    Producer_Sync ([mkClientEvent "1" "put" (Some (mkPayload "apple" 5))] ++
                   [mkClientEvent "2" "restock" (Some (mkPayload "apple" 1))])%list
      false empty_store = (empty_store, Err err').
Proof.
  apply (sync_stuck_on_bad_event _ _ _ (mkClientEvent "2" "restock" (Some (mkPayload "apple" 1)))
           ErrUnknownEventType).
  - split.
    + simpl. repeat constructor; simpl; intuition discriminate.
    + repeat constructor; discriminate.
  - left. reflexivity.
  - left. reflexivity.
  - vm_compute. reflexivity.
Defined.


Lemma DB_WithinTx_Err_store {A} (fn : TxM A) (s s1 : Store) (e : error) :
  DB_WithinTx ReadWrite fn s = (s1, Err e) -> s1 = s.
Proof. unfold DB_WithinTx. destruct (fn s) as [s0 [a|e0]]; congruence. Qed.

Lemma fold_sync_store {L} (sync : Log -> TxM unit) (updates : list Log)
    (st : Store) (x : option (error + L)) :
  fst (fold_left (fun '(st, _) lg =>
                    match sync lg st with
                    | (st', Err e) => (st', Some (inl e))
                    | (st', Ok _) => (st', None)
                    end) updates (st, x))
  = fold_left (fun st lg => fst (sync lg st)) updates st.
Proof.
  revert st x; induction updates as [|lg us IH]; intros st x; [reflexivity|].
  cbn [fold_left]. destruct (sync lg st) as [st' [[]|e]]; apply IH.
Qed.

Lemma fold_sync_store_str {L} (sync : Log -> TxM string) (updates : list Log)
    (st : Store) (x : option (error + L)) :
  fst (fold_left (fun '(st, _) lg =>
                    match sync lg st with
                    | (st', Err e) => (st', Some (inl e))
                    | (st', Ok _) => (st', None)
                    end) updates (st, x))
  = fold_left (fun st lg => fst (sync lg st)) updates st.
Proof.
  revert st x; induction updates as [|lg us IH]; intros st x; [reflexivity|].
  cbn [fold_left]. destruct (sync lg st) as [st' [v|e]]; apply IH.
Qed.

Lemma Producer_Sync_store (lg : Log) (s : Store) :
  fst (Producer_Sync lg false s) = fst (Consumer_Sync lg s).
Proof. rewrite <- (Producer_Sync_forget lg s). reflexivity. Qed.

(** X15: [Run] returns the initial [Sync]'s error (the store untouched);
    once that succeeds, its result is [Listen]'s alone: a [Sync] failing
    on a later notification is assigned to [err] and then overwritten by
    [return c.c.Listen(...)], so it is never reported, and the next
    notification syncs again from the unchanged store. The producer's loop
    behaves exactly as the consumer's. *)
Theorem run_reports_only_listen_result {L} (lg0 : Log) (updates : list Log)
    (lerr : option L) (s : Store) :
  Consumer_Run lg0 updates lerr s
  = match Consumer_Sync lg0 s with
    | (_, Err e) => (s, Some (inl e))
    | (s1, Ok _) =>
        (fold_left (fun st lg => fst (Consumer_Sync lg st)) updates s1,
         option_map inr lerr)
    end /\
  Producer_Run lg0 updates lerr s = Consumer_Run lg0 updates lerr s.
Proof.
  assert (Hc : Consumer_Run lg0 updates lerr s
    = match Consumer_Sync lg0 s with
      | (_, Err e) => (s, Some (inl e))
      | (s1, Ok _) =>
          (fold_left (fun st lg => fst (Consumer_Sync lg st)) updates s1,
           option_map inr lerr)
      end).
  { unfold Consumer_Run.
    destruct (Consumer_Sync lg0 s) as [s1 [[]|e]] eqn:H0.
    - rewrite <- (@fold_sync_store L Consumer_Sync updates s1 None).
      destruct (fold_left _ updates _) as [s2 err]. reflexivity.
    - rewrite (DB_WithinTx_Err_store _ _ _ _ H0). reflexivity. }
  split; [exact Hc|].
  rewrite Hc. unfold Producer_Run.
  pose proof (Producer_Sync_forget lg0 s) as Hf.
  assert (Hfold : forall s1,
    fold_left (fun st lg => fst (Producer_Sync lg false st)) updates s1
    = fold_left (fun st lg => fst (Consumer_Sync lg st)) updates s1).
  { clear. induction updates as [|lg us IH]; intros s1; [reflexivity|].
    cbn [fold_left]. rewrite Producer_Sync_store. apply IH. }
  destruct (Producer_Sync lg0 false s) as [s1 [v|e]] eqn:H0;
    rewrite <- Hf; cbn [fst snd forget].
  - rewrite <- Hfold, <- (@fold_sync_store_str L (fun lg => Producer_Sync lg false) updates s1 None).
    destruct (fold_left _ updates _) as [s2 err]. reflexivity.
  - assert (s1 = s).
    { pose proof (Producer_Sync_forget lg0 s) as Hf'. rewrite H0 in Hf'.
      symmetry in Hf'. simpl in Hf'. exact (DB_WithinTx_Err_store _ _ _ _ Hf'). }
    subst s1. reflexivity.
Qed.

Lemma Consumer_Sync_body_inv (lg : Log) (s : Store) :
  store_inv s -> store_inv (fst (Consumer_Sync_body lg s)).
Proof.
  intros Hs. unfold Consumer_Sync_body, bind, Tx_GetProjectionVersion.
  destruct (String.eqb _ "0"); [exact Hs|].
  unfold Client_Scan. destruct (scan_from _ lg) as [es|]; [|exact Hs].
  rewrite scan_each_consumer. apply replay_inv. exact Hs.
Qed.

Lemma sync_step_inv (s s' : Store) : sync_step s s' -> store_inv s -> store_inv s'.
Proof.
  intros [lg [v H]] Hs. cbn [Producer_Sync] in H.
  pose proof (Producer_sync_forget lg s) as Hf. rewrite H in Hf.
  cbn [fst snd forget] in Hf.
  assert (E : s' = fst (Consumer_Sync_body lg s)) by (rewrite <- Hf; reflexivity).
  rewrite E. apply Consumer_Sync_body_inv. exact Hs.
Qed.

Lemma rtc_sync_step_inv (s s' : Store) :
  rtc sync_step s s' -> store_inv s -> store_inv s'.
Proof.
  induction 1 as [|x y z Hxy _ IH]; intros Hx; [exact Hx|].
  apply IH. exact (sync_step_inv x y Hxy Hx).
Qed.

(** A successful [TryAppend] with an event builder that only reads the
    transaction: the builder succeeds on the final store, and the log holds
    the other writers' first batches followed by the built event. *)
Lemma TryAppend_ok_shape (fuel : nat) (others : list Log) (fresh assumed : string)
    (build : TxM EventData) (onConflict : Log -> TxM string)
    (lg lg' : Log) (t t' : Store) (v : string) :
  (forall t0, fst (build t0) = t0) ->
  Client_TryAppend fuel others fresh assumed build onConflict lg t
    = Some (lg', t', Ok v) ->
  exists k ev, build t' = (t', Ok ev) /\ v = fresh /\
    lg' = (lg ++ concat (firstn k others) ++
           [mkClientEvent fresh (ed_Label ev) (Some (ed_PayloadJSON ev))])%list.
Proof.
  intros Hpure. revert others assumed lg t.
  induction fuel as [|fuel IH]; intros others assumed lg t H;
    cbn [Client_TryAppend] in H;
    pose proof (Hpure t) as Ht; destruct (build t) as [t1 [ev|e]] eqn:Hb;
    simpl in Ht; subst t1; try discriminate.
  - destruct (String.eqb _ _); [|discriminate].
    injection H as <- <- <-. exists 1%nat, ev. split; [exact Hb|]. split; [reflexivity|].
    unfold Client_Append. rewrite !app_assoc.
    destruct others as [|o os]; simpl; rewrite ?app_nil_r; reflexivity.
  - destruct (String.eqb _ _).
    + injection H as <- <- <-. exists 1%nat, ev. split; [exact Hb|]. split; [reflexivity|].
      unfold Client_Append. rewrite !app_assoc.
      destruct others as [|o os]; simpl; rewrite ?app_nil_r; reflexivity.
    + destruct (onConflict _ t) as [t2 [v'|e]]; [|discriminate].
      destruct (IH _ _ _ _ H) as [k [ev' [Hb' [Hv Hlg]]]].
      exists (match others with [] => k | _ => S k end), ev'.
      split; [exact Hb'|]. split; [exact Hv|]. rewrite Hlg.
      destruct others as [|o os]; simpl.
      * destruct k; simpl; rewrite ?app_nil_r; reflexivity.
      * rewrite !app_assoc. reflexivity.
Qed.

Lemma Take_build_Ok (object : string) (quantity : Z) (t t' : Store) (ev : EventData) :
  store_inv t -> 0 <= quantity <= int64_max ->
  Take_build object quantity t = (t', Ok ev) ->
  ev = mkEventData "take" (mkPayload object quantity) /\
  quantity <= default 0 (objects t !! object).
Proof.
  intros Ht Hq H.
  destruct (Z_lt_le_dec (default 0 (objects t !! object) - quantity) 0) as [Hlt|Hle].
  - rewrite (Take_build_insuff object quantity t Ht Hq Hlt) in H. discriminate.
  - assert (Hle' : quantity <= default 0 (objects t !! object)) by lia.
    rewrite (Take_build_ok object quantity t Ht Hq Hle') in H.
    injection H as _ <-. split; [reflexivity|exact Hle'].
Qed.

(** X16: a successful [Take] (on a projection satisfying the replay
    invariant, for an int64 quantity) had a non-empty object and a
    non-negative quantity; the log is the old log, then batches other
    writers appended while [TryAppend] retried, then exactly one take
    event with the object and the quantity at the version the log
    assigned; and the committed projection, on which the builder's
    check ran, holds at least that quantity of the object. *)
Theorem take_success_shape (fuel : nat) (others : list Log) (fresh object : string)
    (quantity : Z) (w w' : World) :
  store_inv (db w) -> quantity <= int64_max ->
  Take fuel others fresh object quantity w = Some (w', Ok tt) ->
  object <> "" /\ 0 <= quantity /\
  (exists k, wlog w' = (wlog w ++ concat (firstn k others) ++
     [mkClientEvent fresh "take" (Some (mkPayload object quantity))])%list) /\
  quantity <= default 0 (objects (db w') !! object).
Proof.
  intros Hinv Hmax H. unfold Take in H.
  destruct (ValidateInput object quantity) eqn:Hval; [discriminate|].
  unfold ValidateInput in Hval.
  destruct (String.eqb_spec object "") as [E|Hobj]; [discriminate|].
  destruct (Z.ltb_spec quantity 0) as [Hneg|Hnn]; [discriminate|].
  destruct (Client_TryAppend _ _ _ _ _ _ _ _) as [[[lg' t'] [v|err]]|] eqn:HT;
    [|discriminate|discriminate].
  injection H as <-. cbn [db wlog].
  pose proof (TryAppend_ok_sync _ _ _ _ _ _ _ _ _ _ (Take_build_pure object quantity) HT)
    as Hsteps.
  pose proof (rtc_sync_step_inv _ _ Hsteps Hinv) as Hinv'.
  destruct (TryAppend_ok_shape _ _ _ _ _ _ _ _ _ _ _ (Take_build_pure object quantity) HT)
    as [k [ev [Hb [_ Hlg]]]].
  destruct (Take_build_Ok object quantity t' t' ev Hinv' (conj Hnn Hmax) Hb) as [-> Hq].
  split; [exact Hobj|]. split; [exact Hnn|]. split; [|exact Hq].
  exists k. exact Hlg.
Qed.

Lemma take_success_shape_witness :
  let x := mkClientEvent "1" "put" (Some (mkPayload "apple" 5)) in
  let y := mkClientEvent "2" "put" (Some (mkPayload "pear" 1)) in
  let w := mkWorld (mkStore {[ "apple" := 5 ]} "1") [x] in
  "apple" <> "" /\ 0 <= 2 /\
  (exists k, wlog (mkWorld (mkStore {[ "pear" := 1; "apple" := 5 ]} "2")
                     [x; y; mkClientEvent "3" "take" (Some (mkPayload "apple" 2))])
     = (wlog w ++ concat (firstn k [[y]]) ++
        [mkClientEvent "3" "take" (Some (mkPayload "apple" 2))])%list) /\
  2 <= default 0 (objects (mkStore {[ "pear" := 1; "apple" := 5 ]} "2") !! "apple").
Proof.
  cbn zeta.
  apply (take_success_shape 1 [[mkClientEvent "2" "put" (Some (mkPayload "pear" 1))]] "3"
           "apple" 2 (mkWorld (mkStore {[ "apple" := 5 ]} "1")
                        [mkClientEvent "1" "put" (Some (mkPayload "apple" 5))])).
  - unfold store_inv. simpl. apply map_Forall_singleton. unfold int64_max. lia.
  - unfold int64_max. lia.
  - vm_compute. reflexivity.
Defined.


Lemma scanPrefix_loop_abort (onObject : string -> Z -> bool) (items : list (string * Z)) :
  scanPrefix_loop (fun object quantity =>
    if onObject object quantity then None else Some ErrAbortScan) items
  = if forallb (fun '(k, q) => onObject k q) items then None else Some ErrAbortScan.
Proof.
  induction items as [|[k q] items IH]; [reflexivity|].
  cbn [scanPrefix_loop forallb]. destruct (onObject k q); [exact IH|reflexivity].
Qed.

Lemma forallb_false_In {A} (f : A -> bool) (l : list A) :
  forallb f l = false -> exists x, In x l /\ f x = false.
Proof.
  induction l as [|x l IH]; [discriminate|]. cbn [forallb].
  destruct (f x) eqn:E; cbn [andb]; intros H.
  - destruct (IH H) as [y [Hy Hf]]. exists y. split; [right; exact Hy|exact Hf].
  - exists x. split; [left; reflexivity|exact E].
Qed.

Lemma forallb_map_to_list_false (onObject : string -> Z -> bool) (m : gmap string Z) :
  forallb (fun '(k, q) => onObject k q) (map_to_list m) = false <->
  exists k q, m !! k = Some q /\ onObject k q = false.
Proof.
  split.
  - intros H. destruct (forallb_false_In _ _ H) as [[k q] [Hin Hf]].
    apply list_elem_of_In, elem_of_map_to_list in Hin. eauto.
  - intros [k [q [Hk Hf]]]. apply not_true_iff_false. rewrite forallb_forall.
    intros Hall.
    assert (Ht : onObject k q = true)
      by (apply (Hall (k, q)); apply list_elem_of_In, elem_of_map_to_list; exact Hk).
    congruence.
Qed.

(** X17: [ScanDB] runs in a read-only transaction and never changes the
    projection. It returns [ErrAbortScan] exactly when [onVersion] accepts
    the projection version and [onObject] rejects some stored object, and
    [nil] otherwise, whatever order the objects are enumerated in. *)
Theorem scandb_result (onVersion : string -> bool) (onObject : string -> Z -> bool)
    (s : Store) :
  fst (Consumer_ScanDB onVersion onObject s) = s /\
  (snd (Consumer_ScanDB onVersion onObject s) = Ok tt \/
   snd (Consumer_ScanDB onVersion onObject s) = Err ErrAbortScan) /\
  (snd (Consumer_ScanDB onVersion onObject s) = Err ErrAbortScan <->
   onVersion (pversion s) = true /\
   exists object q, objects s !! object = Some q /\ onObject object q = false).
Proof.
  unfold Consumer_ScanDB, DB_WithinTx, bind, Tx_GetProjectionVersion.
  destruct (onVersion (pversion s)) eqn:Hv; cbn [negb].
  - unfold Tx_ScanObjects, Tx_scanPrefix. rewrite scanPrefix_loop_abort.
    destruct (forallb _ (map_to_list (objects s))) eqn:Hf; cbn [fst snd].
    + split; [reflexivity|]. split; [left; reflexivity|].
      split; [discriminate|]. intros [_ Hx].
      apply forallb_map_to_list_false in Hx. congruence.
    + split; [reflexivity|]. split; [right; reflexivity|].
      split; [|reflexivity]. intros _. split; [reflexivity|].
      apply forallb_map_to_list_false. exact Hf.
  - cbn [fst snd ret]. split; [reflexivity|]. split; [left; reflexivity|].
    split; [discriminate|]. intros [H _]. discriminate.
Qed.

(** X18: a "take" line for at most what the projection holds, when the
    projection is at the log head once the other writers' first batch is
    in, appends exactly one take event with the object and the quantity
    after that batch, with no resync; the projection is left as it was
    and the session goes on with the next line. *)
Theorem producer_cli_take_line (env : PEnv) (w : World) (obj rest : string) (n : Z) :
  obj <> "" -> str_all is_word obj = true -> 0 <= n < 2 ^ 31 ->
  store_inv (db w) -> n <= default 0 (objects (db w) !! obj) ->
  head_version (wlog w ++ default [] (head (env_others env (wlog w))))%list
    = pversion (db w) ->
  ScanLines (Producer_onInput env) (typed_line "take" n obj ++ String newline rest) w
  = ScanLines (Producer_onInput env) rest
      (mkWorld (db w) (wlog w ++ default [] (head (env_others env (wlog w))) ++
         [mkClientEvent (env_fresh env (wlog w)) "take" (Some (mkPayload obj n))])%list).
Proof.
  intros Hne Hw Hn Hinv Hle Hhead.
  destruct (typed_line_facts "take" obj n eq_refl Hne Hw ltac:(lia)) as [Hnl [Hex Hp]].
  rewrite (ScanLines_line _ _ _ _ Hnl). unfold Producer_onInput.
  rewrite Hex, Hp. cbv iota. cbn [String.eqb Ascii.eqb Bool.eqb andb].
  assert (HV : ValidateInput obj n = None).
  { unfold ValidateInput. rewrite (String_eqb_neq obj "" Hne).
    destruct (Z.ltb_spec n 0); [lia|reflexivity]. }
  unfold Take. rewrite HV.
  assert (HT : Client_TryAppend (env_fuel env) (env_others env (wlog w))
                 (env_fresh env (wlog w)) (pversion (db w)) (Take_build obj n)
                 (fun lg => Producer_Sync lg true) (wlog w) (db w)
               = Some (Client_Append (env_fresh env (wlog w))
                         (mkEventData "take" (mkPayload obj n))
                         (wlog w ++ default [] (head (env_others env (wlog w))))%list,
                       db w, Ok (env_fresh env (wlog w)))).
  { destruct (env_fuel env); cbn [Client_TryAppend];
      rewrite (Take_build_ok obj n (db w) Hinv) by (unfold int64_max; lia);
      rewrite Hhead, String_eqb_refl'; reflexivity. }
  rewrite HT. unfold Client_Append. rewrite <- app_assoc. reflexivity.
Qed.

Lemma producer_cli_take_line_witness :
  let w := mkWorld (mkStore {[ "apple" := 5 ]} "1")
                   [mkClientEvent "1" "put" (Some (mkPayload "apple" 5))] in
  let env := mkPEnv 3 (fun _ => []) (fun _ => "2") in
  ScanLines (Producer_onInput env) (typed_line "take" 2 "apple" ++ String newline "") w
  = ScanLines (Producer_onInput env) ""
      (mkWorld (db w) (wlog w ++ default [] (head (env_others env (wlog w))) ++
         [mkClientEvent (env_fresh env (wlog w)) "take" (Some (mkPayload "apple" 2))])%list).
Proof.
  cbn zeta. apply producer_cli_take_line; try reflexivity; try discriminate; try lia.
  unfold store_inv. simpl. apply map_Forall_singleton. unfold int64_max. lia.
Defined.
